(** * Query enumeration and session protocol of the non-profit registry scraper

    Shallow embedding of
    [src/playwright_version/scrape_non_profits_concurrent.py]:

    - the letter-sequence enumerator that lives inline in the search loop
      of [process_business_type_session] (the mutable list [search_word]);
    - the session itself (filter set-up, search loop, per-term exception
      handler, [finally: page.close()]) as a computation in a small
      trace / state / exception monad whose external calls are answered by
      an explicit environment;
    - the status classification of [save_result].

    Python strings are lists of Unicode code points. *)

From Stdlib Require Import List NArith ZArith Bool String Ascii Lia Sorted DecimalString.
Import ListNotations.
Open Scope N_scope.

(** ** Python strings *)

Module PyStr.

(** A Python [str]: its code points, in order. *)
Definition str := list N.

(** A string literal of the source. *)
Definition lit (s : string) : str :=
  List.map N_of_ascii (list_ascii_of_string s).

Fixpoint eqb (s t : str) : bool :=
  match s, t with
  | [], [] => true
  | c :: s', d :: t' => (c =? d) && eqb s' t'
  | _, _ => false
  end.

Fixpoint prefixb (p s : str) : bool :=
  match p, s with
  | [], _ => true
  | c :: p', d :: s' => (c =? d) && prefixb p' s'
  | _ :: _, [] => false
  end.

(** [needle in hay] *)
Fixpoint contains (needle hay : str) : bool :=
  prefixb needle hay ||
  match hay with
  | [] => false
  | _ :: hay' => contains needle hay'
  end.

(** [s.split(sep)] for a one-character separator: every occurrence of
    the separator cuts, so consecutive separators give empty pieces. *)
Fixpoint split (sep : N) (s : str) : list str :=
  match s with
  | [] => [[]]
  | c :: s' =>
      if c =? sep then [] :: split sep s'
      else match split sep s' with
           | [] => [[c]]
           | piece :: rest => (c :: piece) :: rest
           end
  end.

(** [x in pieces] for a list of strings *)
Definition mem (x : str) (l : list str) : bool := existsb (eqb x) l.

End PyStr.

Import PyStr.

(** ** The enumerator: the list [search_word] and its update (lines 269-275) *)

Module Enumerator.

(** An entry of [search_word] is a one-character string (the list only
    ever receives ['a'] and results of [chr]), kept as its code point;
    ["".join(search_word)] is then the list itself. *)
Definition letter := N.
Definition word := list letter.

Definition letter_a : letter := 97.
Definition letter_z : letter := 122.

Definition ord (c : letter) : N := c.

(** [chr(i)] raises [ValueError] outside [range(0x110000)]. *)
Definition chr (i : N) : option letter :=
  if i <? 1114112 then Some i else None.

Definition is_z (c : letter) : bool := c =? letter_z.

Definition is_lower (c : letter) : bool :=
  (letter_a <=? c) && (c <=? letter_z).

(** A term of the enumeration: letters ['a'..'z'] only. *)
Definition all_lower (w : word) : bool := forallb is_lower w.

Definition all_z (w : word) : bool := forallb is_z w.

(** [while len(search_word) > 0 and search_word[-1] == 'z': search_word.pop()],
    on the reversed list (last element first). *)
Fixpoint pop_z_rev (r : list letter) : list letter :=
  match r with
  | c :: r' => if is_z c then pop_z_rev r' else r
  | [] => []
  end.

Definition pop_trailing_z (w : word) : word := rev (pop_z_rev (rev w)).

(** [if len(search_word) > 0: search_word[-1] = chr(ord(search_word[-1]) + 1)];
    [None] when [chr] raises (the list is then left as it was). *)
Definition bump_last (w : word) : option word :=
  match rev w with
  | [] => Some w
  | c :: r =>
      match chr (ord c + 1) with
      | Some c' => Some (rev (c' :: r))
      | None => None
      end
  end.

(** [search_word.append('a')] *)
Definition descend (w : word) : word := w ++ [letter_a].

(** The whole update at lines 269-275: the list afterwards, and whether
    the statement sequence ran to its end ([false]: [chr] raised after
    the pops). *)
Definition step_word (saturated : bool) (w : word) : word * bool :=
  if saturated then (descend w, true)
  else
    let w1 := pop_trailing_z w in
    match bump_last w1 with
    | Some w2 => (w2, true)
    | None => (w1, false)
    end.

(** The enumerator as the loop reads it: the next term, or none when
    the list is empty and [while len(search_word) > 0] ends the loop. *)
Definition advance (saturated : bool) (w : word) : option word :=
  match fst (step_word saturated w) with
  | [] => None
  | w' => Some w'
  end.

(** Python's order on strings: by code point, position by position, a
    proper prefix first. On lowercase letters this is dictionary order,
    the letters being the digits of the counter. *)
Fixpoint lex_ltb (u v : word) : bool :=
  match u, v with
  | _, [] => false
  | [], _ :: _ => true
  | c :: u', d :: v' => (c <? d) || ((c =? d) && lex_ltb u' v')
  end.

Definition lex_lt (u v : word) : Prop := lex_ltb u v = true.

(** Being past ["a"]: lowercase, and empty (the loop is over) or
    strictly after ["a"]. *)
Definition past_a (w : word) : Prop :=
  all_lower w = true /\ (w = [] \/ lex_ltb (lit "a") w = true).

Definition strict_prefix (u v : word) : Prop :=
  exists s, s <> [] /\ v = u ++ s.

(** The terms met when the saturation signal is [false] at every step,
    starting at [w]: [w], then each successive term until none. *)
Fixpoint sweep (fuel : nat) (w : word) : list word :=
  match fuel with
  | O => []
  | S fuel' =>
      w :: match advance false w with
           | Some w' => sweep fuel' w'
           | None => []
           end
  end.

End Enumerator.

Import Enumerator.

(** ** Effects: trace, local state, exceptions *)

Module Effects.

(** Python's exception hierarchy as far as the handlers tell it apart:
    [except Exception] catches [Exc] only, a bare [except:] and
    [finally] see both ([BaseExc]: [CancelledError], [KeyboardInterrupt]). *)
Inductive exn := Exc | BaseExc.

(** What an external call answers. *)
Inductive result (A : Type) :=
| Ok (a : A)
| Err (e : exn).
Arguments Ok {A} a.
Arguments Err {A} e.

(** Modelled from the spec: the [SearchResult] class is imported from
    [concurrent_scraper], which is not part of the sources at hand; the
    fields are those the constructor call (lines 252-257) and
    [save_result] use, [error_message] being the optional one. *)
Record SearchResult := {
  business_name : str;
  html_content : str;
  success : bool;
  error_message : option str;
  search_time : N
}.

(** The calls a session makes on the outside world, in the order made.
    [asyncio.sleep] is taken to complete; of the [print] calls only the
    handler's error message is recorded ([LogError]). *)
Inductive event :=
| Sleep (ms : N)
| SleepRandom
| NewPage
| Goto
| QuerySelector (selector : string)
| Click (selector : string)
| WaitForSelector (selector : string)
| SelectOption (selector : string) (choice : str)
| EvalOptions
| Scroll
| Content
| Fill (selector : string) (text : str)
| WaitResults
| CountResults
| WaitResultsAgain
| Deliver (res : SearchResult)
| LogError (term : str)
| ClosePage.

(** How a block of statements ends. [Pending]: the recorded answers ran
    out while the block was still running. *)
Inductive completion (A : Type) :=
| Normal (a : A)
| Raised (e : exn)
| Returned
| Pending.
Arguments Normal {A} a.
Arguments Raised {A} e.
Arguments Returned {A}.
Arguments Pending {A}.

Definition M (S A : Type) : Type := S -> list event * S * completion A.

Definition ret {S A} (a : A) : M S A := fun s => ([], s, Normal a).

Definition bind {S A B} (m : M S A) (k : A -> M S B) : M S B :=
  fun s =>
    match m s with
    | (t, s', Normal a) => let '(t', s'', c) := k a s' in (t ++ t', s'', c)
    | (t, s', Raised e) => (t, s', Raised e)
    | (t, s', Returned) => (t, s', Returned)
    | (t, s', Pending) => (t, s', Pending)
    end.

(** An external call: recorded, then it answers or raises. *)
Definition call {S A} (ev : event) (r : result A) : M S A :=
  fun s => ([ev], s, match r with Ok a => Normal a | Err e => Raised e end).

Definition emit {S} (ev : event) : M S unit := fun s => ([ev], s, Normal tt).

Definition sleep {S} (ms : N) : M S unit := emit (Sleep ms).

(** [return] *)
Definition return_ {S A} : M S A := fun s => ([], s, Returned).

Definition pending {S A} : M S A := fun s => ([], s, Pending).

(** [try: body except Exception: handler] *)
Definition try_except {S A} (body handler : M S A) : M S A :=
  fun s =>
    match body s with
    | (t, s', Raised Exc) => let '(t', s'', c) := handler s' in (t ++ t', s'', c)
    | r => r
    end.

(** [try: body except: handler] *)
Definition try_except_all {S A} (body handler : M S A) : M S A :=
  fun s =>
    match body s with
    | (t, s', Raised _) => let '(t', s'', c) := handler s' in (t ++ t', s'', c)
    | r => r
    end.

(** [try: body finally: final]. The final block runs however the body
    ends; if it raises, its exception replaces the body's outcome. *)
Definition try_finally {S A} (body : M S A) (final : M S unit) : M S A :=
  fun s =>
    match body s with
    | (t, s', Pending) => (t, s', Pending)
    | (t, s', c) =>
        match final s' with
        | (t', s'', Normal _) => (t ++ t', s'', c)
        | (t', s'', Raised e) => (t ++ t', s'', Raised e)
        | (t', s'', Returned) => (t ++ t', s'', Returned)
        | (t', s'', Pending) => (t ++ t', s'', Pending)
        end
    end.

(** A block with a local variable of its own, initialised to [s0]. *)
Definition with_local {S S' A} (s0 : S') (m : M S' A) : M S A :=
  fun s => let '(t, _, c) := m s0 in (t, s, c).

Definition trace_of {S A} (r : list event * S * completion A) : list event :=
  fst (fst r).
Definition state_of {S A} (r : list event * S * completion A) : S :=
  snd (fst r).
Definition completion_of {S A} (r : list event * S * completion A) : completion A :=
  snd r.

End Effects.

Import Effects.

Declare Scope py_scope.
Delimit Scope py_scope with py.
Notation "x <- m ;; k" := (bind m (fun x => k))
  (at level 61, m at next level, right associativity) : py_scope.
Notation "m ;; k" := (bind m (fun _ => k))
  (at level 61, right associativity) : py_scope.
Open Scope py_scope.

(** ** The session: [process_business_type_session] (lines 89-291) *)

Module Session.

(** What [soup.find('div', attrs={"class": "appPagerBanner"})] gives on
    a captured page: the banner's text, no such element ([None]), or
    the parser raising. *)
Inductive banner_lookup :=
| Banner (text : str)
| NoBanner
| ParserRaises.

(** Answers of the outside world during filter set-up (steps 1-5), at
    page creation and at [page.close()]. *)
Record setup_env := {
  new_page_r : result unit;
  goto_r : result unit;
  cookie_present_r : result bool;
  cookie_click_r : result unit;
  advanced_present_r : string -> result bool;
  advanced_click_r : result unit;
  register_wait_r : result unit;
  register_select_r : result unit;
  type_present_r : nat -> result bool;
  type_options_r : nat -> result (list str);
  type_select_r : result unit;
  scroll_r : result unit;
  status_present_r : result bool;
  status_select_r : result unit;
  close_r : result unit
}.

(** Answers of the outside world during one pass of the search loop. *)
Record iter_env := {
  content_before_r : result str;
  captcha_poll_r : nat -> result bool;
  fill_r : result unit;
  search_button_r : result bool;
  click_r : result unit;
  wait_results_r : result unit;
  count_results_r : result N;
  page_size_r : result unit;
  wait_again_r : result unit;
  content_after_r : result str;
  elapsed : N;
  callback_r : result unit
}.

Section WithLibraries.

(** The two library functions the session relies on: [str.lower] and
    the HTML parser's banner lookup. *)
Variable str_lower : str -> str.
Variable find_banner : str -> banner_lookup.

(** *** Filter set-up *)

(** Cookie banner (lines 124-128) *)
Definition accept_cookies (e : setup_env) : M unit unit :=
  try_except_all
    (present <- call (QuerySelector "button:has-text('Accept all')") (cookie_present_r e) ;;
     if (present : bool)
     then call (Click "button:has-text('Accept all')") (cookie_click_r e)
     else ret tt)
    (ret tt).

(** [for selector in [...]: if query_selector(selector): click; sleep; break] *)
Fixpoint click_advanced (e : setup_env) (selectors : list string) : M unit bool :=
  match selectors with
  | [] => ret false
  | selector :: rest =>
      present <- call (QuerySelector selector) (advanced_present_r e selector) ;;
      if (present : bool)
      then call (Click selector) (advanced_click_r e) ;; sleep 1000 ;; ret true
      else click_advanced e rest
  end.

(** Step 2 (lines 132-143) *)
Definition open_advanced (e : setup_env) : M unit unit :=
  try_except
    (click_advanced e ["#expandonodeW297"; "text=Advanced"; ".advanced-search-toggle"]%string ;;
     ret tt)
    (ret tt).

(** Step 3 (lines 146-152) *)
Definition select_register (e : setup_env) : M unit unit :=
  try_except
    (call (WaitForSelector "#SourceAppCode") (register_wait_r e) ;;
     call (SelectOption "#SourceAppCode" (lit "Corporations")) (register_select_r e) ;;
     sleep 3000)
    return_.

(** [for attempt in range(5): ...] of step 4; the value is [found_type]. *)
Fixpoint lookup_type (e : setup_env) (business_type : str) (attempts : list nat)
  : M unit bool :=
  match attempts with
  | [] => ret false
  | attempt :: rest =>
      present <- call (QuerySelector "#EntitySubTypeCode") (type_present_r e attempt) ;;
      found <- (if (present : bool)
                then
                  options <- call EvalOptions (type_options_r e attempt) ;;
                  if existsb (contains business_type) options
                  then call (SelectOption "#EntitySubTypeCode" business_type)
                            (type_select_r e) ;;
                       ret true
                  else ret false
                else ret false) ;;
      if (found : bool) then ret true
      else sleep 2000 ;; lookup_type e business_type rest
  end.

(** Step 4 (lines 155-172) *)
Definition select_business_type (e : setup_env) (business_type : str) : M unit unit :=
  try_except
    (found_type <- lookup_type e business_type (seq 0 5) ;;
     if (found_type : bool) then ret tt else return_)
    return_.

(** Step 5 (lines 175-184) *)
Definition select_status (e : setup_env) : M unit unit :=
  try_except
    (call Scroll (scroll_r e) ;;
     sleep 500 ;;
     present <- call (QuerySelector "#Status") (status_present_r e) ;;
     if (present : bool)
     then call (SelectOption "#Status" (lit "Active")) (status_select_r e)
     else ret tt)
    (ret tt).

(** Steps 1-3 (lines 118-152) *)
Definition reach_type_selection (e : setup_env) : M unit unit :=
  call Goto (goto_r e) ;;
  sleep 2000 ;;
  accept_cookies e ;;
  open_advanced e ;;
  select_register e.

(** Lines 118-184 *)
Definition setup_filters (e : setup_env) (business_type : str) : M unit unit :=
  reach_type_selection e ;;
  select_business_type e business_type ;;
  select_status e.

(** *** One pass of the search loop *)

Definition challenge_detected (content : str) : bool :=
  contains (lit "captcha") (str_lower content)
  || contains (lit "unblock") (str_lower content)
  || contains (lit "bot") (str_lower content).

(** [for k in range(12): sleep(5); if query_selector("#QueryString"): break] *)
Fixpoint captcha_wait (e : iter_env) (ks : list nat) : M word unit :=
  match ks with
  | [] => ret tt
  | k :: rest =>
      sleep 5000 ;;
      present <- call (QuerySelector "#QueryString") (captcha_poll_r e k) ;;
      if (present : bool) then ret tt else captcha_wait e rest
  end.

(** Page size to 200 (lines 229-242); [letter] is ["".join(search_word)]. *)
Definition raise_page_size (e : iter_env) (letter : str) : M word unit :=
  if PyStr.eqb letter (lit "a")
  then
    try_except
      (n <- call CountResults (count_results_r e) ;;
       if 0 <? n
       then call (SelectOption ".appSearchPageSize select" (lit "4")) (page_size_r e) ;;
            sleep 7000 ;;
            call WaitResultsAgain (wait_again_r e)
       else ret tt)
      (ret tt)
  else ret tt.

(** Lines 195-226: challenge check, fill, click, wait for results. *)
Definition submit_search (e : iter_env) (letter : str) : M word unit :=
  content <- call Content (content_before_r e) ;;
  (if challenge_detected content then captcha_wait e (seq 0 12) else ret tt) ;;
  call (Fill "#QueryString" letter) (fill_r e) ;;
  present <- call (QuerySelector "#nodeW303") (search_button_r e) ;;
  (if (present : bool)
   then call (Click "#nodeW303") (click_r e)
   else call (Click "button:has-text('Search')") (click_r e)) ;;
  sleep 2000 ;;
  try_except (call WaitResults (wait_results_r e)) (ret tt).

(** Lines 195-245: search the term and capture the page. *)
Definition search_and_capture (e : iter_env) (letter : str) : M word str :=
  submit_search e letter ;;
  raise_page_size e letter ;;
  call Content (content_after_r e).

(** Lines 260-267: [businesses_count_200]. A missing banner makes
    [result_blocks.text] raise [AttributeError], caught like a parser
    error by [except Exception]. *)
Definition saturation_signal (html : str) : bool :=
  match find_banner html with
  | Banner text => mem (lit "200") (split 32 text)
  | NoBanner => false
  | ParserRaises => false
  end.

(** Lines 269-275 on the session's [search_word]. *)
Definition advance_state (saturated : bool) : M word unit :=
  fun w =>
    let '(w', finished) := step_word saturated w in
    ([], w', if (finished : bool) then Normal tt else Raised Exc).

Definition make_result (e : iter_env) (letter business_type html : str) : SearchResult :=
  {| business_name := letter ++ lit " (" ++ business_type ++ lit ")";
     html_content := html;
     success := true;
     error_message := None;
     search_time := elapsed e |}.

(** Lines 246-281: build the result, classify saturation, move the
    enumerator, deliver, pause. *)
Definition record_and_advance (e : iter_env) (letter business_type html : str)
  : M word unit :=
  advance_state (saturation_signal html) ;;
  call (Deliver (make_result e letter business_type html)) (callback_r e) ;;
  emit SleepRandom.

(** The [try] block of the loop body (lines 195-281) *)
Definition process_term (e : iter_env) (letter business_type : str) : M word unit :=
  html <- search_and_capture e letter ;;
  record_and_advance e letter business_type html.

(** The [except Exception] block (lines 283-287) *)
Definition on_error (letter : str) : M word unit :=
  emit (LogError letter) ;; sleep 5000.

(** The loop body (lines 191-287) *)
Definition search_iteration (e : iter_env) (business_type : str) : M word unit :=
  fun search_word =>
    try_except
      (process_term e search_word business_type)
      (on_error search_word)
      search_word.

(** [while len(search_word) > 0: ...]; each pass consumes one
    [iter_env] of the script, and the loop is [Pending] if the script
    ends first. *)
Fixpoint search_loop (script : list iter_env) (business_type : str) : M word unit :=
  fun search_word =>
    match search_word with
    | [] => ret tt search_word
    | _ :: _ =>
        match script with
        | [] => pending search_word
        | e :: script' =>
            (search_iteration e business_type ;;
             search_loop script' business_type) search_word
        end
    end.

(** The body of the outer [try] (lines 104-287) *)
Definition session_body (se : setup_env) (script : list iter_env) (business_type : str)
  : M unit unit :=
  setup_filters se business_type ;;
  with_local [letter_a] (search_loop script business_type).

(** [process_business_type_session]; [start_delay] in milliseconds.
    The context pool is taken to be non-empty. *)
Definition process_business_type_session
  (se : setup_env) (script : list iter_env) (business_type : str) (start_delay : N)
  : M unit unit :=
  (if 0 <? start_delay then sleep start_delay else ret tt) ;;
  call NewPage (new_page_r se) ;;
  try_finally
    (session_body se script business_type)
    (call ClosePage (close_r se)).

Definition run_session
  (se : setup_env) (script : list iter_env) (business_type : str) (start_delay : N)
  : list event * completion unit :=
  let '(t, _, c) := process_business_type_session se script business_type start_delay tt in
  (t, c).

End WithLibraries.

End Session.

Import Session.

(** ** The sink's classification: [save_result] (lines 319-320) *)

Module Sink.

(** The three status labels written to the report:
    "Found", "No Data", "Error". *)
Inductive status := Found | NoData | Error.

Definition no_results_marker : str := lit "No results found".

Definition classify (res : SearchResult) : status :=
  let status :=
    if success res && negb (contains no_results_marker (html_content res))
    then Found else NoData in
  if negb (success res) then Error else status.

End Sink.

Import Sink.

(** ** Reading a trace *)

Module Trace.

Definition is_page_size_raise (ev : event) : bool :=
  match ev with
  | SelectOption selector _ => String.eqb selector ".appSearchPageSize select"
  | _ => false
  end.

Definition is_type_lookup (ev : event) : bool :=
  match ev with
  | QuerySelector selector => String.eqb selector "#EntitySubTypeCode"
  | _ => false
  end.

Definition is_delivery (ev : event) : bool :=
  match ev with Deliver _ => true | _ => false end.

Definition is_fill (ev : event) : bool :=
  match ev with Fill _ _ => true | _ => false end.

Definition is_error_log (ev : event) : bool :=
  match ev with LogError _ => true | _ => false end.

Definition is_close (ev : event) : bool :=
  match ev with ClosePage => true | _ => false end.

Definition count (p : event -> bool) (t : list event) : nat :=
  List.length (filter p t).

(** The terms submitted to the search field, in order. *)
Fixpoint submitted (t : list event) : list str :=
  match t with
  | [] => []
  | Fill _ text :: t' => text :: submitted t'
  | _ :: t' => submitted t'
  end.

(** The results handed to the callback, in order. *)
Fixpoint delivered (t : list event) : list SearchResult :=
  match t with
  | [] => []
  | Deliver res :: t' => res :: delivered t'
  | _ :: t' => delivered t'
  end.

(** The terms for which the page-size raise was issued, in order: a
    term is attached to the raise by the [Fill] that precedes it. *)
Fixpoint raised_for (current : option str) (t : list event) : list (option str) :=
  match t with
  | [] => []
  | Fill _ text :: t' => raised_for (Some text) t'
  | ev :: t' =>
      if is_page_size_raise ev then current :: raised_for current t'
      else raised_for current t'
  end.

(** Every event of [m], from whatever state, satisfies [P]. *)
Definition emits {S A} (P : event -> Prop) (m : M S A) : Prop :=
  forall s, Forall P (trace_of (m s)).

(** [m] leaves the local state as it found it. *)
Definition keeps_state {S A} (m : M S A) : Prop :=
  forall s, state_of (m s) = s.

(** [m] ends normally or by raising: no [return], never cut short. *)
Definition plain {A} (c : completion A) : Prop :=
  match c with
  | Normal _ | Raised _ => True
  | Returned | Pending => False
  end.

Definition ends_plainly {S A} (m : M S A) : Prop :=
  forall s, plain (completion_of (m s)).

Definition fills_only (w : str) (ev : event) : Prop :=
  match ev with
  | Fill _ text => text = w
  | _ => True
  end.

Definition no_page_size_raise (ev : event) : Prop :=
  is_page_size_raise ev = false.

(** Nothing that belongs to the search loop or to the end of a session. *)
Definition setup_event (ev : event) : Prop :=
  match ev with
  | Fill _ _ | Deliver _ | LogError _ | ClosePage | NewPage => False
  | _ => is_page_size_raise ev = false
  end.

(** Nothing that belongs to set-up or to the end of a session. *)
Definition loop_event (ev : event) : Prop :=
  match ev with
  | ClosePage | NewPage | Goto | EvalOptions | Scroll | WaitForSelector _ => False
  | _ => is_type_lookup ev = false
  end.

(** What one pass over the term [w] may do: fill in [w] only, stay
    within the loop's calls, and raise the page size only if [w] is ["a"]. *)
Definition pass_event (w : str) (ev : event) : Prop :=
  fills_only w ev /\ loop_event ev /\ (is_page_size_raise ev = true -> w = lit "a").

Definition pre_type_event (ev : event) : Prop :=
  setup_event ev /\ is_type_lookup ev = false.

(** A submitted term is a non-empty lowercase word. *)
Definition proper_term (text : str) : Prop :=
  text <> [] /\ all_lower text = true.

Definition proper_fill (ev : event) : Prop :=
  match ev with
  | Fill _ text => proper_term text
  | _ => True
  end.

(** Attempt [attempt] of step 4 does not find the business type: the
    dropdown is absent, or its options do not mention it. *)
Definition type_missing (se : setup_env) (business_type : str) (attempt : nat) : bool :=
  match type_present_r se attempt with
  | Ok false => true
  | Ok true =>
      match type_options_r se attempt with
      | Ok options => negb (existsb (contains business_type) options)
      | Err _ => false
      end
  | Err _ => false
  end.

(** The calls of such an attempt: the lookup, the option read if the
    dropdown is there, the two-second pause. *)
Definition missed_attempt (se : setup_env) (attempt : nat) : list event :=
  QuerySelector "#EntitySubTypeCode"
    :: match type_present_r se attempt with
       | Ok true => [EvalOptions; Sleep 2000]
       | _ => [Sleep 2000]
       end.

(** How often the page-size block of a pass over ["a"] issues the
    raise: once if result rows were counted, not at all otherwise. *)
Definition expected_raises (e : iter_env) : nat :=
  match count_results_r e with
  | Ok n => if 0 <? n then 1 else 0
  | Err _ => 0
  end.

(** The calls a session makes before its outer [try]. *)
Definition preamble (start_delay : N) : list event :=
  (if 0 <? start_delay then [Sleep start_delay] else []) ++ [NewPage].

(** The part of a trace that starts at the first event satisfying [p]. *)
Fixpoint from_first (p : event -> bool) (t : list event) : list event :=
  match t with
  | [] => []
  | ev :: t' => if p ev then t else from_first p t'
  end.

End Trace.

Import Trace.

(** ** Environments used in examples *)

Module Scenario.

(** Every set-up call answers; every looked-up element is there and the
    option list holds the three business types. *)
Definition business_types : list str :=
  [lit "Co-operative Non-Share"; lit "Co-operative with Share";
   lit "Not-for-Profit Corporation"].

Definition setup_ok : setup_env :=
  {| new_page_r := Ok tt; goto_r := Ok tt;
     cookie_present_r := Ok false; cookie_click_r := Ok tt;
     advanced_present_r := fun _ => Ok true; advanced_click_r := Ok tt;
     register_wait_r := Ok tt; register_select_r := Ok tt;
     type_present_r := fun _ => Ok true;
     type_options_r := fun _ => Ok business_types;
     type_select_r := Ok tt;
     scroll_r := Ok tt; status_present_r := Ok true; status_select_r := Ok tt;
     close_r := Ok tt |}.

(** The dropdown is there but never lists the requested type. *)
Definition setup_type_missing : setup_env :=
  {| new_page_r := Ok tt; goto_r := Ok tt;
     cookie_present_r := Ok false; cookie_click_r := Ok tt;
     advanced_present_r := fun _ => Ok true; advanced_click_r := Ok tt;
     register_wait_r := Ok tt; register_select_r := Ok tt;
     type_present_r := fun _ => Ok true;
     type_options_r := fun _ => Ok [lit "Select..."];
     type_select_r := Ok tt;
     scroll_r := Ok tt; status_present_r := Ok true; status_select_r := Ok tt;
     close_r := Ok tt |}.

(** Navigation fails outright. *)
Definition setup_goto_fails : setup_env :=
  {| new_page_r := Ok tt; goto_r := Err Exc;
     cookie_present_r := Ok false; cookie_click_r := Ok tt;
     advanced_present_r := fun _ => Ok true; advanced_click_r := Ok tt;
     register_wait_r := Ok tt; register_select_r := Ok tt;
     type_present_r := fun _ => Ok true;
     type_options_r := fun _ => Ok business_types;
     type_select_r := Ok tt;
     scroll_r := Ok tt; status_present_r := Ok true; status_select_r := Ok tt;
     close_r := Ok tt |}.

(** A pass in which every call answers and the page shows [html] with
    [rows] result rows. *)
Definition pass (html : str) (rows : N) : iter_env :=
  {| content_before_r := Ok html; captcha_poll_r := fun _ => Ok true;
     fill_r := Ok tt; search_button_r := Ok true; click_r := Ok tt;
     wait_results_r := Ok tt; count_results_r := Ok rows;
     page_size_r := Ok tt; wait_again_r := Ok tt;
     content_after_r := Ok html; elapsed := 3000; callback_r := Ok tt |}.

(** The same, but filling the search field raises. *)
Definition pass_fill_fails (html : str) : iter_env :=
  {| content_before_r := Ok html; captcha_poll_r := fun _ => Ok true;
     fill_r := Err Exc; search_button_r := Ok true; click_r := Ok tt;
     wait_results_r := Ok tt; count_results_r := Ok 0;
     page_size_r := Ok tt; wait_again_r := Ok tt;
     content_after_r := Ok html; elapsed := 3000; callback_r := Ok tt |}.

(** The same as [pass], but capturing the page after the search raises. *)
Definition pass_capture_fails (html : str) (rows : N) : iter_env :=
  {| content_before_r := Ok html; captcha_poll_r := fun _ => Ok true;
     fill_r := Ok tt; search_button_r := Ok true; click_r := Ok tt;
     wait_results_r := Ok tt; count_results_r := Ok rows;
     page_size_r := Ok tt; wait_again_r := Ok tt;
     content_after_r := Err Exc; elapsed := 3000; callback_r := Ok tt |}.

(** A pass interrupted while filling the search field (cancellation). *)
Definition pass_interrupted (html : str) : iter_env :=
  {| content_before_r := Ok html; captcha_poll_r := fun _ => Ok true;
     fill_r := Err BaseExc; search_button_r := Ok true; click_r := Ok tt;
     wait_results_r := Ok tt; count_results_r := Ok 0;
     page_size_r := Ok tt; wait_again_r := Ok tt;
     content_after_r := Ok html; elapsed := 3000; callback_r := Ok tt |}.

(** A pass in which the page-size control is missing: [select_option]
    raises. *)
Definition pass_no_size_control (html : str) (rows : N) : iter_env :=
  {| content_before_r := Ok html; captcha_poll_r := fun _ => Ok true;
     fill_r := Ok tt; search_button_r := Ok true; click_r := Ok tt;
     wait_results_r := Ok tt; count_results_r := Ok rows;
     page_size_r := Err Exc; wait_again_r := Ok tt;
     content_after_r := Ok html; elapsed := 3000; callback_r := Ok tt |}.

(** The calls of one pass over ["a"] in which filling the field raises. *)
Definition failed_fill_calls : list event :=
  [Content; Fill "#QueryString" (lit "a"); LogError (lit "a"); Sleep 5000].

(** A pass that meets a challenge page which never clears. *)
Definition pass_challenged (rows : N) : iter_env :=
  {| content_before_r := Ok (lit "Please solve the CAPTCHA");
     captcha_poll_r := fun _ => Ok false;
     fill_r := Ok tt; search_button_r := Ok false; click_r := Ok tt;
     wait_results_r := Err Exc; count_results_r := Ok rows;
     page_size_r := Ok tt; wait_again_r := Ok tt;
     content_after_r := Ok (lit "Please solve the CAPTCHA");
     elapsed := 92000; callback_r := Ok tt |}.

(** Set-up in which every best-effort control is missing or refuses,
    and the business type shows up at the third attempt. *)
Definition setup_bare : setup_env :=
  {| new_page_r := Ok tt; goto_r := Ok tt;
     cookie_present_r := Err Exc; cookie_click_r := Err Exc;
     advanced_present_r := fun _ => Ok false; advanced_click_r := Err Exc;
     register_wait_r := Ok tt; register_select_r := Ok tt;
     type_present_r := fun i => Ok (Nat.leb 1 i);
     type_options_r := fun i => Ok (if Nat.leb 2 i then business_types
                                    else [lit "Select..."]);
     type_select_r := Ok tt;
     scroll_r := Err Exc; status_present_r := Ok false; status_select_r := Err Exc;
     close_r := Ok tt |}.

(** Library stand-ins: a page whose banner is the whole page text when
    it starts with "Showing", and has no banner otherwise; lower-casing
    of the letters A-Z. *)
Definition lower_ascii (s : str) : str :=
  List.map (fun c => if (65 <=? c) && (c <=? 90) then c + 32 else c) s.

Definition banner_of (html : str) : banner_lookup :=
  if prefixb (lit "Showing") html then Banner html else NoBanner.

Definition page_few : str := lit "Showing 1 to 17 of 17".
Definition page_full : str := lit "Showing 1 to 200 of 3456".
Definition page_empty : str := lit "No results found".

Definition nfp : str := lit "Not-for-Profit Corporation".

Definition alphabet : list word :=
  List.map (fun c => [c]) (lit "abcdefghijklmnopqrstuvwxyz").

End Scenario.

Import Scenario.

(** ** The enumeration as a walk (lines 189-190 with 269-275) *)

Module Walk.

(** The loop [search_word = ['a']; while len(search_word) > 0: ...]
    reduced to its enumerator: each pass reads one saturation signal and
    applies the update. The result lists the terms met with their
    signals, and tells whether the list became empty (the loop ended)
    before the signals ran out. *)
Fixpoint walk (signals : list bool) (w : word) : list (word * bool) * bool :=
  match w with
  | [] => ([], true)
  | _ :: _ =>
      match signals with
      | [] => ([], false)
      | saturated :: rest =>
          let '(l, ended) := walk rest (fst (step_word saturated w)) in
          ((w, saturated) :: l, ended)
      end
  end.

(** [s] is accounted for by a walk: it was searched itself, or one of
    its prefixes was searched and found unsaturated (so the prefix's
    page already showed every match for [s]). *)
Definition covered (l : list (word * bool)) (s : word) : Prop :=
  exists p saturated,
    In (p, saturated) l /\ prefixb p s = true /\ (p = s \/ saturated = false).

Definition lex_le (u v : word) : Prop := u = v \/ lex_ltb u v = true.

End Walk.

Import Walk.

(** ** Passes in which every call answers *)

Module Quiet.

Definition answered {A} (r : result A) : bool :=
  match r with Ok _ => true | Err _ => false end.

(** Not interrupted: the call answers or raises an [Exception]. *)
Definition not_interrupted {A} (r : result A) : bool :=
  match r with Err BaseExc => false | _ => true end.

(** A pass in which no challenge page is shown, the calls outside the
    inner [try] blocks answer, and the calls inside them are at worst
    refused with an [Exception]. *)
Definition pass_succeeds (str_lower : str -> str) (e : iter_env) : bool :=
  match content_before_r e with
  | Ok before => negb (challenge_detected str_lower before)
  | Err _ => false
  end
  && answered (fill_r e) && answered (search_button_r e) && answered (click_r e)
  && not_interrupted (wait_results_r e) && not_interrupted (count_results_r e)
  && not_interrupted (page_size_r e) && not_interrupted (wait_again_r e)
  && answered (content_after_r e) && answered (callback_r e).

(** The page captured by a pass (line 245). *)
Definition page_of (e : iter_env) : str :=
  match content_after_r e with
  | Ok html => html
  | Err _ => []
  end.

(** The saturation signal a pass reads off its captured page. *)
Definition signal_of (find_banner : str -> banner_lookup) (e : iter_env) : bool :=
  saturation_signal find_banner (page_of e).

(** The results a walk should deliver: one per term, labelled with the
    term and holding the page captured for it. *)
Fixpoint results_along (script : list iter_env) (terms : list word) (business_type : str)
  : list SearchResult :=
  match script, terms with
  | e :: script', w :: terms' =>
      make_result e w business_type (page_of e)
        :: results_along script' terms' business_type
  | _, _ => []
  end.

End Quiet.

Import Quiet.

(** ** Further readings of a session *)

Module Reading.

(** A delivery made by a pass over [w]: the result built at lines 252-257. *)
Definition delivery_for (w business_type : str) (ev : event) : Prop :=
  match ev with
  | Deliver res => exists e html, res = make_result e w business_type html
  | _ => True
  end.

(** A result as the session builds it: successful, without error
    message, named after a proper term and the business type. *)
Definition session_result (business_type : str) (res : SearchResult) : Prop :=
  success res = true /\
  error_message res = None /\
  exists w, proper_term w /\
            business_name res = w ++ lit " (" ++ business_type ++ lit ")".

Definition proper_delivery (business_type : str) (ev : event) : Prop :=
  match ev with
  | Deliver res => session_result business_type res
  | _ => True
  end.

(** Set-up without its best-effort steps (cookie banner, advanced
    toggle, status filter): navigation, register, business type. *)
Definition required_steps (e : setup_env) (business_type : str) : M unit unit :=
  call Goto (goto_r e) ;;
  sleep 2000 ;;
  select_register e ;;
  select_business_type e business_type.

(** No call of the best-effort steps is interrupted. *)
Definition optional_steps_uninterrupted (e : setup_env) : bool :=
  forallb (fun selector => not_interrupted (advanced_present_r e selector))
          ["#expandonodeW297"; "text=Advanced"; ".advanced-search-toggle"]%string
  && not_interrupted (advanced_click_r e)
  && not_interrupted (scroll_r e)
  && not_interrupted (status_present_r e)
  && not_interrupted (status_select_r e).

(** One round of the challenge pause (lines 200-201). *)
Definition poll_round : list event := [Sleep 5000; QuerySelector "#QueryString"].

Definition is_poll (ev : event) : bool :=
  match ev with
  | QuerySelector selector => String.eqb selector "#QueryString"
  | _ => false
  end.

(** Total time slept, in milliseconds, random pauses left out. *)
Fixpoint slept (t : list event) : N :=
  match t with
  | [] => 0
  | Sleep ms :: t' => ms + slept t'
  | _ :: t' => slept t'
  end.

(** The calls of the attempt that finds the business type. *)
Definition found_attempt (business_type : str) : list event :=
  [QuerySelector "#EntitySubTypeCode"; EvalOptions;
   SelectOption "#EntitySubTypeCode" business_type].

End Reading.

Import Reading.

(** ** Names of results *)

Module Naming.

(** [f"{letter} ({business_type})"] (line 253) *)
Definition result_name (business_type : str) (w : word) : str :=
  w ++ lit " (" ++ business_type ++ lit ")".

End Naming.

Import Naming.

(** ** The report written by [save_result] (lines 316-379) *)

Module Report.

(** [s.replace(old, new)] and [s.replace(old, '')] for one-character [old]. *)
Definition replace_char (old new : N) (s : str) : str :=
  List.map (fun c => if c =? old then new else c) s.

Definition remove_char (old : N) (s : str) : str :=
  List.filter (fun c => negb (c =? old)) s.

(** [res.business_name.replace(' ', '_').replace('(', '').replace(')', '')] *)
Definition safe_name (business_name : str) : str :=
  remove_char 41 (remove_char 40 (replace_char 32 95 business_name)).

(** [f"result_{safe_name}_{timestamp}.html"] *)
Definition snapshot_name (timestamp business_name : str) : str :=
  lit "result_" ++ safe_name business_name ++ lit "_" ++ timestamp ++ lit ".html".

(** [str(n)] for a count or an index. *)
Definition decimal (n : nat) : str :=
  lit (DecimalString.NilEmpty.string_of_uint (Nat.to_uint n)).

(** The status labels, with their leading signs (U+2705, U+274C,
    U+26A0 U+FE0F). *)
Definition status_label (s : status) : str :=
  match s with
  | Found => 9989 :: lit " Found"
  | NoData => 10060 :: lit " No Data"
  | Error => 9888 :: 65039 :: lit " Error"
  end.

(** What is written: a chunk appended to the report, or a snapshot file. *)
Inductive output :=
| ReportWrite (text : str)
| SnapshotWrite (file content : str).

(** One result block as the parser presents it: for each of the five
    fields, [select_one] finds an element with its stripped text, finds
    none, or raises. *)
Record block := {
  name_field : result (option str);
  type_field : result (option str);
  date_field : result (option str);
  location_field : result (option str);
  status_field : result (option str)
}.

(** [elem.get_text(strip=True) if elem else "N/A"] *)
Definition field_text (found : option str) : str :=
  match found with
  | Some text => text
  | None => lit "N/A"
  end.

Definition separator : str := lit (String "010" "") ++ repeat 61 60 ++ lit (String "010" (String "010" "")).

Definition newline : str := [10].

(** A field of a block: look it up, then write its line. *)
Definition write_field (label : string) (field : result (option str))
  : list output * option exn :=
  match field with
  | Ok found => ([ReportWrite (lit label ++ lit ": " ++ field_text found ++ newline)], None)
  | Err ex => ([], Some ex)
  end.

(** Statements in sequence: the second runs if the first did not raise. *)
Definition and_then (first second : list output * option exn) : list output * option exn :=
  match first with
  | (out, None) => (out ++ fst second, snd second)
  | (out, Some ex) => (out, Some ex)
  end.

(** The body of the loop over result blocks (lines 346-373). *)
Definition write_block (idx : nat) (b : block) : list output * option exn :=
  and_then ([ReportWrite (lit "--- Result #" ++ decimal idx ++ lit " ---" ++ newline)], None)
  (and_then (write_field "Business Name" (name_field b))
  (and_then (write_field "Business Type" (type_field b))
  (and_then (write_field "Amalgamation/Inc. Date" (date_field b))
  (and_then (write_field "Location" (location_field b))
  (and_then (write_field "Status" (status_field b))
            ([ReportWrite newline], None)))))).

(** [for idx, block in enumerate(result_blocks, 1): ...] from index [idx]. *)
Fixpoint write_blocks (idx : nat) (blocks : list block) : list output * option exn :=
  match blocks with
  | [] => ([], None)
  | b :: rest => and_then (write_block idx b) (write_blocks (S idx) rest)
  end.

Section WithSinkLibraries.

(** Formatting and library functions the sink relies on: [:.2f] on the
    elapsed time, the run's timestamp, [os.path.join(output_dir, _)],
    [os.path.basename], the parser's block selection, and [str(e)]. *)
Variable format_time : N -> str.
Variable timestamp : str.
Variable join_output_dir : str -> str.
Variable basename : str -> str.
Variable select_blocks : str -> result (list block).
Variable describe : exn -> str.

(** Lines 339-375: the [try] block and its [except Exception]. *)
Definition extract (html : str) : list output * option exn :=
  let attempt :=
    match select_blocks html with
    | Ok blocks =>
        and_then
          ([ReportWrite (lit "Results Found: " ++ decimal (List.length blocks)
                           ++ newline ++ newline)], None)
          (write_blocks 1 blocks)
    | Err ex => ([], Some ex)
    end in
  match attempt with
  | (out, Some Exc) =>
      (out ++ [ReportWrite (lit "Error parsing HTML: " ++ describe Exc ++ newline)], None)
  | other => other
  end.

(** [save_result], file operations taken to succeed: what it writes, and
    the interrupt that cut it short, if any. *)
Definition save_result (res : SearchResult) : list output * option exn :=
  and_then
    ([ReportWrite (lit "SEARCH: " ++ business_name res ++ newline);
      ReportWrite (repeat 45 40 ++ newline);
      ReportWrite (lit "Status: " ++ status_label (classify res) ++ newline);
      ReportWrite (lit "Time: " ++ format_time (search_time res) ++ lit "s" ++ newline)],
     None)
  (and_then
     (if success res
      then
        let html_filename := join_output_dir (snapshot_name timestamp (business_name res)) in
        and_then
          ([SnapshotWrite html_filename (html_content res);
            ReportWrite (lit "Saved HTML: " ++ basename html_filename ++ newline)], None)
          (if negb (contains no_results_marker (html_content res))
           then extract (html_content res)
           else ([], None))
      else
        ([ReportWrite (lit "Error: "
                         ++ match error_message res with
                            | Some message => message
                            | None => lit "None"
                            end
                         ++ newline)], None))
     ([ReportWrite separator], None)).

End WithSinkLibraries.

Definition is_separator (o : output) : bool :=
  match o with
  | ReportWrite text => PyStr.eqb text separator
  | SnapshotWrite _ _ => false
  end.

Definition is_snapshot (o : output) : bool :=
  match o with
  | SnapshotWrite _ _ => true
  | ReportWrite _ => false
  end.

(** Written inside a record: no separator, no snapshot. *)
Definition inner (o : output) : Prop :=
  is_separator o = false /\ is_snapshot o = false.

End Report.

Import Report.

(** ** Browser and context pools: [start] (lines 48-87) and the context
    a session takes (line 100) *)

Module Pool.

(** [max(1, self.max_concurrent // self.browser_pool_size)] *)
Definition contexts_per_browser (max_concurrent browser_pool_size : Z) : Z :=
  Z.max 1 (max_concurrent / browser_pool_size).

(** What [start] creates: browsers [0 .. browser_pool_size - 1], and for
    each of them, in order, its contexts, named by browser and rank. *)
Definition launched (max_concurrent browser_pool_size : Z) : list nat * list (nat * nat) :=
  let browsers := seq 0 (Z.to_nat browser_pool_size) in
  (browsers,
   flat_map
     (fun i =>
        List.map (pair i)
          (seq 0 (Z.to_nat (contexts_per_browser max_concurrent browser_pool_size))))
     browsers).

(** [start]: both pools are appended to. *)
Definition start (max_concurrent browser_pool_size : Z)
  (browser_pool : list nat) (context_pool : list (nat * nat))
  : list nat * list (nat * nat) :=
  (browser_pool ++ fst (launched max_concurrent browser_pool_size),
   context_pool ++ snd (launched max_concurrent browser_pool_size)).

(** [self.context_pool[context_id % len(self.context_pool)]]; [None]
    when the pool is empty and [%] raises [ZeroDivisionError]. *)
Definition select_context {A} (context_pool : list A) (context_id : Z) : option A :=
  match context_pool with
  | [] => None
  | _ :: _ =>
      nth_error context_pool
        (Z.to_nat (context_id mod Z.of_nat (List.length context_pool)))
  end.

(** [MAX_CONCURRENT] (line 26) *)
Definition MAX_CONCURRENT : Z := 1.

(** The context ids [process_non_profits] hands out:
    [enumerate(business_types)] (lines 389-393). *)
Definition session_ids : list Z :=
  List.map Z.of_nat (seq 0 (List.length business_types)).

End Pool.

Import Pool.

(** ** How long a walk lasts *)

Module Bound.

(** For each letter, the number of letters from it to ['z'], itself
    included; summed over the word. *)
Fixpoint remaining (w : word) : nat :=
  match w with
  | [] => 0
  | c :: r => N.to_nat (123 - c) + remaining r
  end.

(** The first [k] terms of a descent that never stops: [w], [w ++ "a"],
    [w ++ "aa"], ... *)
Fixpoint descent (k : nat) (w : word) : list word :=
  match k with
  | O => []
  | S k' => w :: descent k' (descend w)
  end.

End Bound.

Import Bound.

(** ** Tokens of a banner *)

Module Token.

(** [x] stands in [s] as a whole space-delimited token: it is preceded
    by a space or by the start of [s], and followed by a space or by the
    end of [s]. *)
Definition token (x s : str) : Prop :=
  exists l r,
    s = l ++ x ++ r /\
    (l = [] \/ exists l', l = l' ++ [32]) /\
    (r = [] \/ exists r', r = 32 :: r').

End Token.

Import Token.

(** * Properties *)

(** ** Strings *)

Lemma str_eqb_eq (s t : str) : PyStr.eqb s t = true <-> s = t.
Proof.
  revert t; induction s as [|c s IH]; intros [|d t]; simpl;
    try (split; discriminate); try tauto.
  rewrite andb_true_iff, N.eqb_eq, IH.
  split; [intros [-> ->]; reflexivity | intros H; inversion H; auto].
Qed.

Lemma str_eqb_neq (s t : str) : PyStr.eqb s t = false <-> s <> t.
Proof.
  rewrite <- str_eqb_eq. destruct (PyStr.eqb s t); split; congruence.
Qed.

(** ** The enumerator *)

Section EnumeratorFacts.

Lemma pop_z_rev_repeat (k : nat) (r : list letter) :
  pop_z_rev (repeat letter_z k ++ r) = pop_z_rev r.
Proof. induction k as [|k IH]; simpl; auto. Qed.

Lemma rev_repeat_z (k : nat) : rev (repeat letter_z k) = repeat letter_z k.
Proof.
  induction k as [|k IH]; simpl; auto.
  rewrite IH. clear IH. induction k as [|k IH]; simpl; auto. now rewrite IH.
Qed.

(** Popping stops at the last letter that is not ['z']. *)
Lemma pop_trailing_z_stop (p : word) (c : letter) (k : nat) :
  is_z c = false ->
  pop_trailing_z (p ++ c :: repeat letter_z k) = p ++ [c].
Proof.
  intros Hc. unfold pop_trailing_z.
  rewrite rev_app_distr. simpl. rewrite rev_repeat_z.
  rewrite <- !app_assoc, pop_z_rev_repeat. simpl. rewrite Hc.
  simpl. now rewrite rev_involutive.
Qed.

Lemma pop_trailing_z_all (k : nat) : pop_trailing_z (repeat letter_z k) = [].
Proof.
  unfold pop_trailing_z. rewrite rev_repeat_z.
  rewrite <- (app_nil_r (repeat letter_z k)), pop_z_rev_repeat. reflexivity.
Qed.

(** Every word is a run of ['z'] alone, or has a last non-['z'] letter
    followed by such a run. *)
Lemma word_shape (w : word) :
  (exists k, w = repeat letter_z k) \/
  (exists p c k, w = p ++ c :: repeat letter_z k /\ is_z c = false).
Proof.
  induction w as [|x w IH] using rev_ind.
  - left. now exists 0%nat.
  - destruct (is_z x) eqn:Hx.
    + apply N.eqb_eq in Hx. subst x.
      destruct IH as [[k ->] | (p & c & k & -> & Hc)].
      * left. exists (S k). rewrite <- rev_repeat_z at 1.
        change (rev (repeat letter_z k) ++ [letter_z]) with (rev (letter_z :: repeat letter_z k)).
        apply (rev_repeat_z (S k)).
      * right. exists p, c, (S k). split; auto.
        rewrite <- app_assoc. simpl. f_equal. f_equal.
        rewrite <- rev_repeat_z at 1.
        change (rev (repeat letter_z k) ++ [letter_z]) with (rev (letter_z :: repeat letter_z k)).
        apply (rev_repeat_z (S k)).
    + right. exists w, x, 0%nat. auto.
Qed.

Lemma bump_last_snoc (p : word) (c : letter) :
  bump_last (p ++ [c]) =
    match chr (ord c + 1) with
    | Some c' => Some (p ++ [c'])
    | None => None
    end.
Proof.
  unfold bump_last. rewrite rev_app_distr. simpl.
  destruct (chr (ord c + 1)); auto. now rewrite rev_involutive.
Qed.

Lemma chr_lower (c : letter) : is_lower c = true -> chr (ord c + 1) = Some (c + 1).
Proof.
  unfold is_lower, chr, ord, letter_a, letter_z. intros H.
  apply andb_true_iff in H as [_ H]. apply N.leb_le in H.
  destruct (N.ltb_spec (c + 1) 1114112); auto. lia.
Qed.

Lemma next_lower (c : letter) :
  is_lower c = true -> is_z c = false -> is_lower (c + 1) = true.
Proof.
  unfold is_lower, is_z, letter_a, letter_z. intros H Hz.
  apply andb_true_iff in H as [H1 H2].
  apply N.leb_le in H1, H2. apply N.eqb_neq in Hz.
  apply andb_true_iff; split; apply N.leb_le; lia.
Qed.

Lemma all_lower_app (u v : word) :
  all_lower (u ++ v) = all_lower u && all_lower v.
Proof. apply forallb_app. Qed.

Lemma all_z_repeat (k : nat) : all_z (repeat letter_z k) = true.
Proof. induction k; simpl; auto. Qed.

Lemma all_z_app (u v : word) : all_z (u ++ v) = all_z u && all_z v.
Proof. apply forallb_app. Qed.

(** The update without saturation, on a word with a non-['z'] letter. *)
Lemma step_increment (p : word) (c : letter) (k : nat) :
  is_z c = false -> is_lower c = true ->
  step_word false (p ++ c :: repeat letter_z k) = (p ++ [c + 1], true).
Proof.
  intros Hz Hl. unfold step_word.
  rewrite pop_trailing_z_stop by assumption.
  now rewrite bump_last_snoc, chr_lower.
Qed.

(** The update without saturation, on a run of ['z']. *)
Lemma step_rollover (k : nat) : step_word false (repeat letter_z k) = ([], true).
Proof. unfold step_word. now rewrite pop_trailing_z_all. Qed.

Lemma lex_ltb_bump (p s : word) (c : letter) :
  lex_ltb (p ++ c :: s) (p ++ [c + 1]) = true.
Proof.
  induction p as [|x p IH]; simpl.
  - replace (c <? c + 1) with true; auto.
    symmetry. apply N.ltb_lt. lia.
  - rewrite N.eqb_refl, IH. simpl. apply orb_true_r.
Qed.

Lemma lex_ltb_descend (w : word) : lex_ltb w (descend w) = true.
Proof.
  unfold descend. induction w as [|x w IH]; simpl; auto.
  rewrite N.eqb_refl, IH. apply orb_true_r.
Qed.

Lemma lex_ltb_trans (u v w : word) :
  lex_ltb u v = true -> lex_ltb v w = true -> lex_ltb u w = true.
Proof.
  revert v w; induction u as [|a u IH]; intros [|b v] [|c w]; simpl; auto;
    try discriminate.
  intros H1 H2.
  apply orb_true_iff in H1. apply orb_true_iff in H2. apply orb_true_iff.
  destruct H1 as [H1 | H1]; destruct H2 as [H2 | H2].
  - left. apply N.ltb_lt in H1, H2. apply N.ltb_lt. lia.
  - apply andb_true_iff in H2 as [H2 _]. apply N.eqb_eq in H2. subst. auto.
  - apply andb_true_iff in H1 as [H1 _]. apply N.eqb_eq in H1. subst. auto.
  - apply andb_true_iff in H1 as [H1 H1'], H2 as [H2 H2'].
    apply N.eqb_eq in H1, H2. subst. right.
    rewrite N.eqb_refl. simpl. eauto.
Qed.

Lemma lex_ltb_irrefl (u : word) : lex_ltb u u = false.
Proof.
  induction u as [|a u IH]; simpl; auto.
  rewrite N.ltb_irrefl, IH. simpl. apply andb_false_r.
Qed.

End EnumeratorFacts.

Lemma advance_some (saturated : bool) (w w' : word) :
  fst (step_word saturated w) = w' -> w' <> [] -> advance saturated w = Some w'.
Proof.
  unfold advance. intros E H. rewrite E.
  destruct w' as [|c r]; [now elim H | reflexivity].
Qed.

(** The two ways the unsaturated update can go on a lowercase word. *)
Lemma advance_unsaturated_cases (w : word) :
  all_lower w = true ->
  (exists k, w = repeat letter_z k /\ advance false w = None /\ all_z w = true) \/
  (exists p c k,
      w = p ++ c :: repeat letter_z k /\ is_z c = false /\ is_lower c = true /\
      all_lower p = true /\ advance false w = Some (p ++ [c + 1]) /\ all_z w = false).
Proof.
  intros Hl. destruct (word_shape w) as [[k ->] | (p & c & k & -> & Hc)].
  - left. exists k. repeat split.
    + unfold advance. now rewrite step_rollover.
    + apply all_z_repeat.
  - right. exists p, c, k.
    rewrite all_lower_app in Hl. apply andb_true_iff in Hl as [Hp Hl].
    simpl in Hl. apply andb_true_iff in Hl as [Hcl _].
    repeat split; auto.
    + apply advance_some.
      * now rewrite step_increment.
      * now destruct p.
    + rewrite all_z_app. simpl. rewrite Hc. simpl. apply andb_false_r.
Qed.

(** C1. For a non-empty lowercase term, the update without saturation
    drops the trailing ['z'] letters and moves the letter before them to
    the next letter of the alphabet; the term it yields comes strictly
    later in dictionary order (letters as digits of the counter) and is
    again lowercase; it yields none exactly when every letter was ['z'];
    ["az"] goes to ["b"]. *)
Theorem advance_unsaturated_increments (w : word) :
  w <> [] -> all_lower w = true ->
  ((exists k, w = repeat letter_z k) \/
   (exists p c k, w = p ++ c :: repeat letter_z k /\ c <> letter_z)) /\
  (forall p c k,
      w = p ++ c :: repeat letter_z k -> c <> letter_z ->
      step_word false w = (p ++ [c + 1], true) /\
      advance false w = Some (p ++ [c + 1])) /\
  (forall w', advance false w = Some w' -> lex_lt w w' /\ all_lower w' = true) /\
  (advance false w = None <-> all_z w = true) /\
  advance false (lit "az") = Some (lit "b").
Proof.
  intros _ Hl. repeat split.
  - destruct (word_shape w) as [H | (p & c & k & H & Hc)]; [now left | right].
    exists p, c, k. split; auto. now apply N.eqb_neq.
  - subst w. apply N.eqb_neq in H0.
    rewrite all_lower_app in Hl. apply andb_true_iff in Hl as [_ Hl].
    simpl in Hl. apply andb_true_iff in Hl as [Hl _].
    now apply step_increment.
  - subst w. apply N.eqb_neq in H0.
    rewrite all_lower_app in Hl. apply andb_true_iff in Hl as [_ Hl].
    simpl in Hl. apply andb_true_iff in Hl as [Hl _].
    apply advance_some; [now rewrite step_increment | now destruct p].
  - destruct (advance_unsaturated_cases w Hl)
      as [(k & _ & Hn & _) | (p & c & k & -> & Hc & Hcl & Hp & Hs & _)];
      [congruence|].
    rewrite Hs in H. injection H as <-. apply lex_ltb_bump.
  - destruct (advance_unsaturated_cases w Hl)
      as [(k & _ & Hn & _) | (p & c & k & -> & Hc & Hcl & Hp & Hs & _)];
      [congruence|].
    rewrite Hs in H. injection H as <-.
    rewrite all_lower_app, Hp. simpl. now rewrite next_lower.
  - destruct (advance_unsaturated_cases w Hl)
      as [(k & _ & _ & Hz) | (p & c & k & _ & _ & _ & _ & Hs & _)]; auto.
    congruence.
  - destruct (advance_unsaturated_cases w Hl)
      as [(k & _ & Hn & _) | (p & c & k & _ & _ & _ & _ & _ & Hz)]; auto.
    congruence.
Qed.

Lemma advance_unsaturated_increments_witness :
  lit "bzz" <> [] /\ all_lower (lit "bzz") = true /\
  advance false (lit "bzz") = Some (lit "c") /\
  lex_lt (lit "bzz") (lit "c").
Proof.
  assert (Hne : lit "bzz" <> []) by discriminate.
  assert (Hl : all_lower (lit "bzz") = true) by reflexivity.
  destruct (advance_unsaturated_increments (lit "bzz") Hne Hl)
    as (_ & Hstep & Hlt & _).
  destruct (Hstep [] 98 2%nat eq_refl) as [_ Ha]; [discriminate|].
  split; [exact Hne|]. split; [exact Hl|]. split; [exact Ha|].
  exact (proj1 (Hlt _ Ha)).
Defined.

(** C2. With saturation the update appends ['a']: the term it yields is
    one letter longer, ends in ['a'] and has the previous term as a
    strict prefix; ["a"] goes to ["aa"]. *)
Theorem advance_saturated_descends (w : word) :
  step_word true w = (w ++ [letter_a], true) /\
  (exists w',
      advance true w = Some w' /\
      List.length w' = S (List.length w) /\
      List.last w' letter_z = letter_a /\
      strict_prefix w w') /\
  advance true (lit "a") = Some (lit "aa").
Proof.
  repeat split.
  exists (w ++ [letter_a]). repeat split.
  - apply advance_some; [reflexivity | now destruct w].
  - rewrite length_app. simpl. lia.
  - apply last_last.
  - exists [letter_a]. split; [discriminate | reflexivity].
Qed.

(** C4. From ["a"], with the saturation signal false at every step, the
    terms met are the 26 single letters in alphabetical order; each of
    the first 25 advances yields the next letter, the 26th (from ["z"])
    yields none; a session fed 26 such pages submits exactly these 26
    terms and leaves its loop, while after 25 pages it is still in it. *)
Theorem unsaturated_sweep_is_alphabet :
  (forall n, sweep (26 + n) (lit "a") = alphabet) /\
  List.length alphabet = 26%nat /\
  List.last alphabet [] = lit "z" /\
  List.map (advance false) alphabet = List.map Some (List.tl alphabet) ++ [None] /\
  (let '(t, c) := run_session lower_ascii banner_of setup_ok
                    (repeat (pass page_few 17) 26) nfp 0 in
   submitted t = alphabet /\
   List.length (delivered t) = 26%nat /\
   c = Normal tt) /\
  snd (run_session lower_ascii banner_of setup_ok
         (repeat (pass page_few 17) 25) nfp 0) = Pending.
Proof.
  split; [intros n; vm_compute; reflexivity|].
  split; [reflexivity|]. split; [reflexivity|]. split; [vm_compute; reflexivity|].
  split; [vm_compute; repeat split | vm_compute; reflexivity].
Qed.

(** ** Reasoning rules for the effect combinators *)

Section MonadFacts.

Context {S : Type}.

Lemma count_app (p : event -> bool) (t u : list event) :
  count p (t ++ u) = (count p t + count p u)%nat.
Proof. unfold count. now rewrite filter_app, length_app. Qed.

Lemma count_zero (p : event -> bool) (t : list event) :
  Forall (fun ev => p ev = false) t -> count p t = 0%nat.
Proof.
  unfold count. induction 1 as [|ev t H _ IH]; simpl; auto. now rewrite H.
Qed.

(** What [bind] does to the three components of a run. *)
Lemma bind_run {A B} (m : M S A) (k : A -> M S B) (s : S) :
  bind m k s =
    match completion_of (m s) with
    | Normal a =>
        (trace_of (m s) ++ trace_of (k a (state_of (m s))),
         state_of (k a (state_of (m s))),
         completion_of (k a (state_of (m s))))
    | Raised e => (trace_of (m s), state_of (m s), Raised e)
    | Returned => (trace_of (m s), state_of (m s), Returned)
    | Pending => (trace_of (m s), state_of (m s), Pending)
    end.
Proof.
  unfold bind, trace_of, state_of, completion_of.
  destruct (m s) as [[t s'] [a|e| |]]; simpl; auto.
  now destruct (k a s') as [[t' s''] c].
Qed.

Lemma bind_normal {A B} (m : M S A) (k : A -> M S B) (s s' : S) t a :
  m s = (t, s', Normal a) ->
  bind m k s = (t ++ trace_of (k a s'), state_of (k a s'), completion_of (k a s')).
Proof.
  intros E. unfold bind, trace_of, state_of, completion_of. rewrite E.
  now destruct (k a s') as [[t' s''] c].
Qed.

Lemma bind_returned {A B} (m : M S A) (k : A -> M S B) (s s' : S) t :
  m s = (t, s', Returned) -> bind m k s = (t, s', Returned).
Proof. intros E. unfold bind. now rewrite E. Qed.

(** A sequence that ended normally ran both of its parts to their end. *)
Lemma bind_normal_inv {A B} (m : M S A) (k : A -> M S B) (s : S) (b : B) :
  completion_of (bind m k s) = Normal b ->
  exists a,
    completion_of (m s) = Normal a /\
    completion_of (k a (state_of (m s))) = Normal b /\
    trace_of (bind m k s) = trace_of (m s) ++ trace_of (k a (state_of (m s))) /\
    state_of (bind m k s) = state_of (k a (state_of (m s))).
Proof.
  rewrite bind_run.
  destruct (completion_of (m s)) as [a|e| |]; try discriminate.
  intros H. exists a. auto.
Qed.

(** *** [emits] *)

Lemma emits_ret {A} P (a : A) : emits P (ret (S:=S) a).
Proof. intros s. constructor. Qed.

Lemma emits_return {A} P : emits P (return_ (S:=S) (A:=A)).
Proof. intros s. constructor. Qed.

Lemma emits_pending {A} P : emits P (pending (S:=S) (A:=A)).
Proof. intros s. constructor. Qed.

Lemma emits_call {A} (P : event -> Prop) ev (r : result A) :
  P ev -> emits P (call (S:=S) ev r).
Proof. intros H s. repeat constructor. exact H. Qed.

Lemma emits_emit (P : event -> Prop) ev : P ev -> emits P (emit (S:=S) ev).
Proof. intros H s. repeat constructor. exact H. Qed.

Lemma emits_bind {A B} P (m : M S A) (k : A -> M S B) :
  emits P m -> (forall a, emits P (k a)) -> emits P (bind m k).
Proof.
  intros Hm Hk s. rewrite bind_run. specialize (Hm s).
  destruct (completion_of (m s)); simpl; auto.
  apply Forall_app. split; auto. apply Hk.
Qed.

Lemma emits_try_except {A} P (body handler : M S A) :
  emits P body -> emits P handler -> emits P (try_except body handler).
Proof.
  intros Hb Hh s. unfold try_except, trace_of. specialize (Hb s).
  unfold trace_of in Hb.
  destruct (body s) as [[t s'] [a|[|]| |]]; simpl in *; auto.
  specialize (Hh s'). unfold trace_of in Hh.
  destruct (handler s') as [[t' s''] c]. simpl in *. apply Forall_app; auto.
Qed.

Lemma emits_try_except_all {A} P (body handler : M S A) :
  emits P body -> emits P handler -> emits P (try_except_all body handler).
Proof.
  intros Hb Hh s. unfold try_except_all, trace_of. specialize (Hb s).
  unfold trace_of in Hb.
  destruct (body s) as [[t s'] [a|e| |]]; simpl in *; auto.
  specialize (Hh s'). unfold trace_of in Hh.
  destruct (handler s') as [[t' s''] c]. simpl in *. apply Forall_app; auto.
Qed.

Lemma emits_with_local {S' A} P (s0 : S') (m : M S' A) :
  Forall P (trace_of (m s0)) -> emits P (with_local (S:=S) s0 m).
Proof.
  intros H s. unfold with_local, trace_of.
  unfold trace_of in H. now destruct (m s0) as [[t s'] c].
Qed.

Lemma emits_try_finally {A} P (body : M S A) (final : M S unit) :
  emits P body -> emits P final -> emits P (try_finally body final).
Proof.
  intros Hb Hf s. unfold try_finally, trace_of. specialize (Hb s).
  unfold trace_of in Hb.
  destruct (body s) as [[t s'] c]. simpl in Hb.
  specialize (Hf s'). unfold trace_of in Hf.
  destruct (final s') as [[t' s''] c']. simpl in Hf.
  destruct c; destruct c'; simpl; auto; apply Forall_app; auto.
Qed.

Lemma emits_weaken {A} (P Q : event -> Prop) (m : M S A) :
  (forall ev, P ev -> Q ev) -> emits P m -> emits Q m.
Proof. intros HPQ H s. eapply Forall_impl; [exact HPQ | apply H]. Qed.

(** *** [keeps_state] *)

Lemma keeps_ret {A} (a : A) : keeps_state (ret (S:=S) a).
Proof. intros s. reflexivity. Qed.

Lemma keeps_call {A} ev (r : result A) : keeps_state (call (S:=S) ev r).
Proof. intros s. reflexivity. Qed.

Lemma keeps_emit ev : keeps_state (emit (S:=S) ev).
Proof. intros s. reflexivity. Qed.

Lemma keeps_bind {A B} (m : M S A) (k : A -> M S B) :
  keeps_state m -> (forall a, keeps_state (k a)) -> keeps_state (bind m k).
Proof.
  intros Hm Hk s. rewrite bind_run. specialize (Hm s).
  destruct (completion_of (m s)); simpl; auto.
  unfold state_of at 1. simpl. now rewrite Hk.
Qed.

Lemma keeps_try_except {A} (body handler : M S A) :
  keeps_state body -> keeps_state handler -> keeps_state (try_except body handler).
Proof.
  intros Hb Hh s. unfold try_except, state_of. specialize (Hb s).
  unfold state_of in Hb.
  destruct (body s) as [[t s'] [a|[|]| |]]; simpl in *; auto.
  specialize (Hh s'). unfold state_of in Hh.
  destruct (handler s') as [[t' s''] c]. simpl in *. congruence.
Qed.

(** *** [ends_plainly] *)

Lemma plainly_ret {A} (a : A) : ends_plainly (ret (S:=S) a).
Proof. intros s. exact I. Qed.

Lemma plainly_call {A} ev (r : result A) : ends_plainly (call (S:=S) ev r).
Proof. intros s. now destruct r. Qed.

Lemma plainly_emit ev : ends_plainly (emit (S:=S) ev).
Proof. intros s. exact I. Qed.

Lemma plainly_bind {A B} (m : M S A) (k : A -> M S B) :
  ends_plainly m -> (forall a, ends_plainly (k a)) -> ends_plainly (bind m k).
Proof.
  intros Hm Hk s. rewrite bind_run. specialize (Hm s).
  destruct (completion_of (m s)); simpl in *; auto. apply Hk.
Qed.

Lemma plainly_try_except {A} (body handler : M S A) :
  ends_plainly body -> ends_plainly handler -> ends_plainly (try_except body handler).
Proof.
  intros Hb Hh s. unfold try_except, completion_of. specialize (Hb s).
  unfold completion_of in Hb.
  destruct (body s) as [[t s'] [a|[|]| |]]; simpl in *; auto.
  specialize (Hh s'). unfold completion_of in Hh.
  now destruct (handler s') as [[t' s''] c].
Qed.

End MonadFacts.

(** Goals [emits P m], [keeps_state m], [ends_plainly m] on straight-line
    code: one rule per combinator, a case split per conditional. *)
Ltac effects_step :=
  first
    [ apply emits_ret | apply emits_return | apply emits_pending
    | apply emits_bind | apply emits_try_except | apply emits_try_except_all
    | apply emits_call | apply emits_emit
    | apply keeps_ret | apply keeps_call | apply keeps_emit
    | apply keeps_bind | apply keeps_try_except
    | apply plainly_ret | apply plainly_call | apply plainly_emit
    | apply plainly_bind | apply plainly_try_except
    | match goal with
      | |- emits _ (if ?b then _ else _) => destruct b eqn:?
      | |- keeps_state (if ?b then _ else _) => destruct b eqn:?
      | |- ends_plainly (if ?b then _ else _) => destruct b eqn:?
      | |- forall _, _ => intro
      end ].

Ltac effects := repeat effects_step; try (simpl; auto; fail); try reflexivity.

(** ** One pass of the search loop *)

Section PassFacts.

Variable str_lower : str -> str.
Variable find_banner : str -> banner_lookup.

Local Abbreviation submit_search := (submit_search str_lower).
Local Abbreviation record_and_advance := (record_and_advance find_banner).
Local Abbreviation search_and_capture := (search_and_capture str_lower).
Local Abbreviation process_term := (process_term str_lower find_banner).
Local Abbreviation search_iteration := (search_iteration str_lower find_banner).
Local Abbreviation search_loop := (search_loop str_lower find_banner).

Ltac pass_event_tac :=
  match goal with
  | |- pass_event _ _ =>
      repeat split; simpl; try reflexivity; try discriminate;
      try (intros _; apply str_eqb_eq; assumption)
  end.

Lemma captcha_wait_emits (e : iter_env) (w : str) (ks : list nat) :
  emits (pass_event w) (captcha_wait e ks).
Proof.
  induction ks as [|k ks IH]; simpl; effects; try pass_event_tac; auto.
Qed.

Lemma captcha_wait_keeps (e : iter_env) (ks : list nat) :
  keeps_state (captcha_wait e ks).
Proof. induction ks as [|k ks IH]; simpl; effects; auto. Qed.

Lemma captcha_wait_plainly (e : iter_env) (ks : list nat) :
  ends_plainly (captcha_wait e ks).
Proof. induction ks as [|k ks IH]; simpl; effects; auto. Qed.

Lemma submit_search_emits (e : iter_env) (w : str) :
  emits (pass_event w) (submit_search e w).
Proof.
  unfold Session.submit_search; effects; try pass_event_tac;
    auto using captcha_wait_emits.
Qed.

Lemma submit_search_keeps (e : iter_env) (w : str) : keeps_state (submit_search e w).
Proof. unfold Session.submit_search; effects; auto using captcha_wait_keeps. Qed.

Lemma submit_search_plainly (e : iter_env) (w : str) : ends_plainly (submit_search e w).
Proof. unfold Session.submit_search; effects; auto using captcha_wait_plainly. Qed.

Lemma raise_page_size_emits (e : iter_env) (w : str) :
  emits (pass_event w) (raise_page_size e w).
Proof. unfold raise_page_size; effects; try pass_event_tac. Qed.

Lemma raise_page_size_keeps (e : iter_env) (w : str) : keeps_state (raise_page_size e w).
Proof. unfold raise_page_size; effects. Qed.

Lemma raise_page_size_plainly (e : iter_env) (w : str) : ends_plainly (raise_page_size e w).
Proof. unfold raise_page_size; effects. Qed.

Lemma advance_state_emits P (saturated : bool) : emits P (advance_state saturated).
Proof.
  intros w. unfold advance_state, trace_of.
  destruct (step_word saturated w) as [w' fin]. constructor.
Qed.

Lemma advance_state_plainly (saturated : bool) : ends_plainly (advance_state saturated).
Proof.
  intros w. unfold advance_state, completion_of.
  destruct (step_word saturated w) as [w' []]; exact I.
Qed.

Lemma record_and_advance_emits (e : iter_env) (w bt html : str) :
  emits (pass_event w) (record_and_advance e w bt html).
Proof.
  unfold Session.record_and_advance; effects; try pass_event_tac;
    auto using advance_state_emits.
Qed.

Lemma record_and_advance_plainly (e : iter_env) (w bt html : str) :
  ends_plainly (record_and_advance e w bt html).
Proof.
  unfold Session.record_and_advance; effects; auto using advance_state_plainly.
Qed.

(** Whatever the callback does, the list is the updated one afterwards. *)
Lemma record_and_advance_state (e : iter_env) (letter bt html : str) (w : word) :
  state_of (record_and_advance e letter bt html w) =
    fst (step_word (saturation_signal find_banner html) w).
Proof.
  unfold Session.record_and_advance, advance_state, bind, call, emit, state_of.
  destruct (step_word (saturation_signal find_banner html) w) as [w' []]; simpl; auto.
  destruct (callback_r e) as [[]|ex]; reflexivity.
Qed.

Lemma process_term_emits (e : iter_env) (w bt : str) :
  emits (pass_event w) (process_term e w bt).
Proof.
  unfold Session.process_term; effects; try pass_event_tac;
    auto using submit_search_emits, raise_page_size_emits, record_and_advance_emits,
      captcha_wait_emits, advance_state_emits.
Qed.

Lemma process_term_plainly (e : iter_env) (w bt : str) :
  ends_plainly (process_term e w bt).
Proof.
  unfold Session.process_term; effects;
    auto using submit_search_plainly, raise_page_size_plainly, record_and_advance_plainly,
      captcha_wait_plainly, advance_state_plainly.
Qed.

Lemma on_error_emits (w : str) : emits (pass_event w) (on_error w).
Proof. unfold on_error; effects; try pass_event_tac. Qed.

Lemma search_iteration_emits (e : iter_env) (bt : str) (w : word) :
  Forall (pass_event w) (trace_of (search_iteration e bt w)).
Proof.
  unfold Session.search_iteration.
  apply emits_try_except; [apply process_term_emits | apply on_error_emits].
Qed.

(** A pass ends normally (possibly through its handler) or lets a
    non-[Exception] escape. *)
Lemma search_iteration_completion (e : iter_env) (bt : str) (w : word) :
  completion_of (search_iteration e bt w) = Normal tt \/
  completion_of (search_iteration e bt w) = Raised BaseExc.
Proof.
  unfold Session.search_iteration, try_except, completion_of.
  pose proof (process_term_plainly e w bt w) as H. unfold completion_of in H.
  destruct (process_term e w bt w) as [[t w'] [[]|[|]| |]]; simpl in *; auto;
    contradiction.
Qed.

Lemma search_and_capture_keeps (e : iter_env) (w : str) :
  keeps_state (search_and_capture e w).
Proof.
  unfold Session.search_and_capture; effects;
    auto using submit_search_keeps, raise_page_size_keeps, captcha_wait_keeps.
Qed.

(** A pass that captured the page leaves the list updated according to
    that page's saturation signal, whatever happens afterwards. *)
Lemma search_iteration_captured (e : iter_env) (bt html : str) (w : word) :
  completion_of (search_and_capture e w w) = Normal html ->
  state_of (search_iteration e bt w) =
    fst (step_word (saturation_signal find_banner html) w).
Proof.
  intros Hc. unfold Session.search_iteration, Session.process_term, try_except.
  rewrite bind_run, Hc, (search_and_capture_keeps e w w).
  pose proof (record_and_advance_state e w bt html w) as Hs.
  destruct (completion_of (record_and_advance e w bt html w)) as [[]|[|]| |];
    simpl; auto.
Qed.

(** After a pass the list is what it was, or what the update made of it. *)
Lemma search_iteration_state (e : iter_env) (bt : str) (w : word) :
  state_of (search_iteration e bt w) = w \/
  exists saturated, state_of (search_iteration e bt w) = fst (step_word saturated w).
Proof.
  destruct (completion_of (search_and_capture e w w)) as [html|ex| |] eqn:Hc.
  - right. eexists. eapply search_iteration_captured; eauto.
  - left. unfold Session.search_iteration, Session.process_term, try_except.
    rewrite bind_run, Hc, (search_and_capture_keeps e w w).
    now destruct ex.
  - left. unfold Session.search_iteration, Session.process_term, try_except.
    now rewrite bind_run, Hc, (search_and_capture_keeps e w w).
  - left. unfold Session.search_iteration, Session.process_term, try_except.
    now rewrite bind_run, Hc, (search_and_capture_keeps e w w).
Qed.

End PassFacts.

(** ** The enumerator inside the loop *)

Section WordInvariants.

Lemma advance_inv (saturated : bool) (w w' : word) :
  advance saturated w = Some w' -> fst (step_word saturated w) = w' /\ w' <> [].
Proof.
  unfold advance. destruct (fst (step_word saturated w)); [discriminate|].
  intros H. injection H as <-. split; [reflexivity | discriminate].
Qed.

Lemma advance_none_inv (saturated : bool) (w : word) :
  advance saturated w = None -> fst (step_word saturated w) = [].
Proof.
  unfold advance. now destruct (fst (step_word saturated w)).
Qed.

(** The update keeps a lowercase word lowercase. *)
Lemma step_word_lower (saturated : bool) (w : word) :
  all_lower w = true -> all_lower (fst (step_word saturated w)) = true.
Proof.
  intros Hl. destruct saturated.
  - simpl. unfold descend. rewrite all_lower_app, Hl. reflexivity.
  - destruct (advance_unsaturated_cases w Hl)
      as [(k & _ & Hn & _) | (p & c & k & _ & Hc & Hcl & Hp & Hs & _)].
    + now rewrite (advance_none_inv _ _ Hn).
    + destruct (advance_inv _ _ _ Hs) as [-> _].
      rewrite all_lower_app, Hp. simpl. now rewrite next_lower.
Qed.

(** The update empties a lowercase word or moves it strictly forward. *)
Lemma step_word_forward (saturated : bool) (w : word) :
  all_lower w = true ->
  fst (step_word saturated w) = [] \/ lex_ltb w (fst (step_word saturated w)) = true.
Proof.
  intros Hl. destruct saturated.
  - right. apply lex_ltb_descend.
  - destruct (advance_unsaturated_cases w Hl)
      as [(k & _ & Hn & _) | (p & c & k & -> & Hc & Hcl & Hp & Hs & _)].
    + left. now apply advance_none_inv.
    + right. destruct (advance_inv _ _ _ Hs) as [-> _]. apply lex_ltb_bump.
Qed.

(** A non-empty lowercase word is ["a"] or comes after it. *)
Lemma lower_from_a (w : word) :
  all_lower w = true -> w <> [] -> w = lit "a" \/ lex_ltb (lit "a") w = true.
Proof.
  destruct w as [|c r]; [congruence|]. intros Hl _.
  simpl in Hl. apply andb_true_iff in Hl as [Hc _].
  unfold is_lower, letter_a in Hc. apply andb_true_iff in Hc as [Hc _].
  apply N.leb_le in Hc.
  destruct (N.eq_dec c 97) as [->|Hne].
  - destruct r as [|x r]; [now left | right; reflexivity].
  - right. simpl. replace (97 <? c) with true; auto.
    symmetry. apply N.ltb_lt. lia.
Qed.

Lemma past_a_not_a (w : word) : past_a w -> PyStr.eqb w (lit "a") = false.
Proof.
  intros [_ [-> | H]]; [reflexivity|].
  apply str_eqb_neq. intros ->. now rewrite lex_ltb_irrefl in H.
Qed.

(** Once the update has run on a non-empty lowercase word, the list is
    past ["a"], and stays so. *)
Lemma step_word_past_a (saturated : bool) (w : word) :
  all_lower w = true -> w <> [] -> past_a (fst (step_word saturated w)).
Proof.
  intros Hl Hne. split; [now apply step_word_lower|].
  destruct (step_word_forward saturated w Hl) as [H | H]; [now left | right].
  destruct (lower_from_a w Hl Hne) as [-> | Ha]; auto.
  eapply lex_ltb_trans; eauto.
Qed.

(** The update never empties the list by descending, and empties it
    without saturation only when every letter is ['z']. *)
Lemma step_word_empty (saturated : bool) (w : word) :
  fst (step_word saturated w) = [] -> saturated = false /\ all_z w = true.
Proof.
  destruct saturated.
  - simpl. unfold descend. destruct w; discriminate.
  - intros H. split; auto.
    destruct (word_shape w) as [[k ->] | (p & c & k & -> & Hc)];
      [apply all_z_repeat|].
    exfalso. revert H. unfold step_word.
    rewrite pop_trailing_z_stop, bump_last_snoc by assumption.
    destruct (chr (ord c + 1)); simpl; destruct p; discriminate.
Qed.

End WordInvariants.

(** ** The search loop *)

Section LoopFacts.

Variable str_lower : str -> str.
Variable find_banner : str -> banner_lookup.
Variable bt : str.

Local Abbreviation search_iteration := (search_iteration str_lower find_banner).
Local Abbreviation search_loop := (search_loop str_lower find_banner).

Lemma search_loop_cons (e : iter_env) (script : list iter_env) (c : letter) (r : word) :
  search_loop (e :: script) bt (c :: r) =
    (search_iteration e bt ;; search_loop script bt) (c :: r).
Proof. reflexivity. Qed.

Lemma search_loop_done (script : list iter_env) :
  search_loop script bt [] = ([], [], Normal tt).
Proof. now destruct script. Qed.

(** Loop invariant rule: what every pass keeps and emits, the loop
    keeps and emits. *)
Lemma search_loop_invariant (I : word -> Prop) (P : event -> Prop) :
  (forall e w, I w -> w <> [] ->
               Forall P (trace_of (search_iteration e bt w)) /\
               I (state_of (search_iteration e bt w))) ->
  forall script w, I w -> Forall P (trace_of (search_loop script bt w)).
Proof.
  intros Hpass script. induction script as [|e script IH]; intros w Hw.
  - destruct w; constructor.
  - destruct w as [|c r]; [constructor|].
    rewrite search_loop_cons, bind_run.
    destruct (Hpass e (c :: r) Hw) as [Ht Hs]; [discriminate|].
    destruct (completion_of (search_iteration e bt (c :: r))); simpl; auto.
    apply Forall_app. split; auto.
Qed.

(** A pass from a lowercase word leaves a lowercase word. *)
Lemma search_iteration_lower (e : iter_env) (w : word) :
  all_lower w = true -> all_lower (state_of (search_iteration e bt w)) = true.
Proof.
  intros Hl.
  destruct (search_iteration_state str_lower find_banner e bt w) as [-> | [sat ->]];
    auto using step_word_lower.
Qed.

(** A pass from a word past ["a"] leaves a word past ["a"]. *)
Lemma search_iteration_past_a (e : iter_env) (w : word) :
  past_a w -> w <> [] -> past_a (state_of (search_iteration e bt w)).
Proof.
  intros Hp Hne.
  destruct (search_iteration_state str_lower find_banner e bt w) as [-> | [sat ->]];
    auto.
  destruct Hp as [Hl _]. now apply step_word_past_a.
Qed.

(** Every term the loop submits is a non-empty lowercase word. *)
Lemma search_loop_proper (script : list iter_env) (w : word) :
  all_lower w = true -> Forall proper_fill (trace_of (search_loop script bt w)).
Proof.
  apply search_loop_invariant with (I := fun w => all_lower w = true).
  intros e w' Hl Hne. split; [|now apply search_iteration_lower].
  eapply Forall_impl; [|apply search_iteration_emits].
  intros [] [Hf _]; simpl in *; auto. subst. now split.
Qed.

(** The loop makes only loop calls. *)
Lemma search_loop_events (script : list iter_env) (w : word) :
  Forall loop_event (trace_of (search_loop script bt w)).
Proof.
  apply search_loop_invariant with (I := fun _ => True); auto.
  intros e w' _ _. split; auto.
  eapply Forall_impl; [|apply search_iteration_emits]. now intros ev (_ & H & _).
Qed.

(** Past ["a"], the loop never raises the page size. *)
Lemma search_loop_no_raise (script : list iter_env) (w : word) :
  past_a w -> Forall no_page_size_raise (trace_of (search_loop script bt w)).
Proof.
  apply search_loop_invariant with (I := past_a).
  intros e w' Hp Hne. split; [|now apply search_iteration_past_a].
  eapply Forall_impl; [|apply search_iteration_emits].
  intros ev (_ & _ & H). unfold no_page_size_raise.
  destruct (is_page_size_raise ev) eqn:E; auto.
  specialize (H eq_refl). apply past_a_not_a in Hp.
  apply str_eqb_neq in Hp. contradiction.
Qed.

End LoopFacts.

(** ** Filter set-up *)

Section SetupFacts.

Variable se : setup_env.
Variable bt : str.

Ltac setup_event_tac :=
  match goal with
  | |- setup_event _ => reflexivity
  | |- pre_type_event _ => split; reflexivity
  end.

Lemma click_advanced_emits (selectors : list string) :
  emits setup_event (click_advanced se selectors).
Proof.
  induction selectors as [|sel rest IH]; simpl; effects; try setup_event_tac; auto.
Qed.

Lemma lookup_type_emits (attempts : list nat) :
  emits setup_event (lookup_type se bt attempts).
Proof.
  induction attempts as [|i rest IH]; simpl; effects; try setup_event_tac; auto.
Qed.

(** Steps 1-3 make set-up calls only, none of them a look-up of the
    business-type dropdown. *)
Lemma reach_type_selection_emits : emits pre_type_event (reach_type_selection se).
Proof.
  unfold reach_type_selection, accept_cookies, open_advanced, select_register.
  simpl click_advanced. effects; try setup_event_tac.
Qed.

Lemma setup_filters_emits : emits setup_event (setup_filters se bt).
Proof.
  unfold setup_filters. apply emits_bind.
  - eapply emits_weaken; [|apply reach_type_selection_emits]. now intros ev [H _].
  - intros _. unfold select_business_type, select_status.
    effects; try setup_event_tac; auto using lookup_type_emits.
Qed.

(** When no attempt finds the type, the look-up makes exactly these
    calls and reports [found_type = False]. *)
Lemma lookup_type_missing (attempts : list nat) (s : unit) :
  forallb (type_missing se bt) attempts = true ->
  lookup_type se bt attempts s =
    (flat_map (missed_attempt se) attempts, s, Normal false).
Proof.
  induction attempts as [|i rest IH]; intros H; simpl in *; auto.
  apply andb_true_iff in H as [Hi Hrest]. specialize (IH Hrest).
  unfold type_missing in Hi. unfold missed_attempt.
  unfold bind at 1. unfold call at 1.
  destruct (type_present_r se i) as [[|]|ex]; try discriminate.
  - destruct (type_options_r se i) as [options|ex]; try discriminate.
    apply negb_true_iff in Hi.
    unfold bind, call, ret, sleep, emit. rewrite Hi.
    unfold bind, sleep, emit in IH. rewrite IH. reflexivity.
  - unfold bind, call, ret, sleep, emit.
    unfold bind, sleep, emit in IH. rewrite IH. reflexivity.
Qed.

End SetupFacts.

(** ** The session as a whole *)

Section SessionFacts.

Variable str_lower : str -> str.
Variable find_banner : str -> banner_lookup.

Local Abbreviation search_loop := (search_loop str_lower find_banner).
Local Abbreviation session_body := (session_body str_lower find_banner).
Local Abbreviation session := (process_business_type_session str_lower find_banner).
Local Abbreviation run_session := (run_session str_lower find_banner).

Lemma run_session_trace se script bt d :
  fst (run_session se script bt d) = trace_of (session se script bt d tt).
Proof.
  unfold Session.run_session, trace_of.
  now destruct (session se script bt d tt) as [[t s] c].
Qed.

Lemma run_session_completion se script bt d :
  snd (run_session se script bt d) = completion_of (session se script bt d tt).
Proof.
  unfold Session.run_session, completion_of.
  now destruct (session se script bt d tt) as [[t s] c].
Qed.

(** Once the page exists, a session is its body followed by
    [page.close()], unless the body is still running. *)
Lemma run_session_shape se script bt d :
  new_page_r se = Ok tt ->
  run_session se script bt d =
    match completion_of (session_body se script bt tt) with
    | Pending =>
        (preamble d ++ trace_of (session_body se script bt tt), Pending)
    | c =>
        (preamble d ++ trace_of (session_body se script bt tt) ++ [ClosePage],
         match close_r se with
         | Ok _ => c
         | Err ex => Raised ex
         end)
    end.
Proof.
  intros Hnew.
  unfold Session.run_session, Session.process_business_type_session, preamble.
  unfold bind, call, try_finally, sleep, emit, ret, trace_of, completion_of.
  rewrite Hnew.
  destruct (0 <? d); simpl;
    destruct (session_body se script bt tt) as [[tb []] cb];
    destruct cb as [[]|ex| |];
    destruct (close_r se) as [[]|ex']; simpl; reflexivity.
Qed.

Lemma session_body_emits (P : event -> Prop) se script bt :
  (forall ev, setup_event ev -> P ev) ->
  Forall P (trace_of (search_loop script bt (lit "a"))) ->
  emits P (session_body se script bt).
Proof.
  intros Hs Hl. unfold Session.session_body. apply emits_bind.
  - eapply emits_weaken; [exact Hs | apply setup_filters_emits].
  - intros _. now apply emits_with_local.
Qed.

Lemma session_emits (P : event -> Prop) se script bt d :
  (forall ev, setup_event ev -> P ev) ->
  (forall ms, P (Sleep ms)) -> P NewPage -> P ClosePage ->
  Forall P (trace_of (search_loop script bt (lit "a"))) ->
  emits P (session se script bt d).
Proof.
  intros Hs Hsl Hn Hc Hl. unfold Session.process_business_type_session.
  apply emits_bind; [destruct (0 <? d); effects|].
  intros _. apply emits_bind; [now apply emits_call|].
  intros _. apply emits_try_finally; [now apply session_body_emits|].
  now apply emits_call.
Qed.

(** The body of a session never closes the page itself. *)
Lemma session_body_never_closes se script bt :
  Forall (fun ev => is_close ev = false) (trace_of (session_body se script bt tt)).
Proof.
  apply session_body_emits.
  - now intros [].
  - eapply Forall_impl; [|apply search_loop_events]. now intros [].
Qed.

Lemma submitted_proper (t : list event) :
  Forall proper_fill t -> Forall proper_term (submitted t).
Proof.
  induction 1 as [|ev t H _ IH]; simpl; auto.
  destruct ev; auto.
Qed.

End SessionFacts.


(** ** Results on the session *)

Lemma pop_z_rev_length (r : list letter) :
  (List.length (pop_z_rev r) <= List.length r)%nat.
Proof.
  induction r as [|c r IH]; simpl; auto. destruct (is_z c); simpl; lia.
Qed.

(** Without saturation the list never grows. *)
Lemma step_unsaturated_length (w : word) :
  (List.length (fst (step_word false w)) <= List.length w)%nat.
Proof.
  unfold step_word.
  assert (Hp : (List.length (pop_trailing_z w) <= List.length w)%nat).
  { unfold pop_trailing_z. rewrite length_rev.
    rewrite <- (length_rev w). apply pop_z_rev_length. }
  unfold bump_last.
  destruct (rev (pop_trailing_z w)) as [|c r] eqn:E; simpl; auto.
  destruct (chr (ord c + 1)); simpl; auto.
  rewrite length_app, length_rev. simpl.
  apply (f_equal (@List.length _)) in E. rewrite length_rev in E. simpl in E. lia.
Qed.

(** C5. Every term a session submits to the search field is a non-empty
    sequence of lowercase letters; the update with saturation never
    leaves the list empty, and the update without saturation leaves it
    empty only when every letter was ['z'] (the rollover). *)
Theorem submitted_terms_are_nonempty
  (str_lower : str -> str) (find_banner : str -> banner_lookup)
  (se : setup_env) (script : list iter_env) (bt : str) (d : N) :
  Forall proper_term
    (submitted (fst (run_session str_lower find_banner se script bt d))) /\
  (forall w, fst (step_word true w) <> []) /\
  (forall saturated w,
      fst (step_word saturated w) = [] -> saturated = false /\ all_z w = true).
Proof.
  split; [|split].
  - rewrite run_session_trace. apply submitted_proper.
    apply session_emits; try exact I.
    + now intros [].
    + intros ms. exact I.
    + now apply search_loop_proper.
  - intros w H. now destruct (step_word_empty true w H).
  - apply step_word_empty.
Qed.

Lemma submitted_terms_are_nonempty_witness :
  fst (step_word false (lit "zz")) = [] /\ all_z (lit "zz") = true.
Proof.
  assert (H : fst (step_word false (lit "zz")) = []) by reflexivity.
  split; [exact H|].
  exact (proj2 (proj2 (proj2
    (submitted_terms_are_nonempty lower_ascii banner_of setup_ok [] nfp 0))
    false (lit "zz") H)).
Defined.

(** C7. The sink classifies a successful result whose content holds the
    no-results marker as No-Data, an unsuccessful result as Error
    whatever its content, and a successful result without the marker as
    Found. *)
Theorem sink_classification (res : SearchResult) :
  (success res = true ->
   contains no_results_marker (html_content res) = true ->
   classify res = NoData) /\
  (success res = false -> classify res = Error) /\
  (success res = true ->
   contains no_results_marker (html_content res) = false ->
   classify res = Found).
Proof.
  unfold classify. repeat split.
  - intros -> ->. reflexivity.
  - intros ->. reflexivity.
  - intros -> ->. reflexivity.
Qed.

Lemma sink_classification_witness :
  classify {| business_name := lit "a (Not-for-Profit Corporation)";
              html_content := page_empty; success := true;
              error_message := None; search_time := 3000 |} = NoData /\
  classify {| business_name := lit "a (Not-for-Profit Corporation)";
              html_content := page_empty; success := false;
              error_message := Some (lit "timeout"); search_time := 3000 |} = Error /\
  classify {| business_name := lit "a (Not-for-Profit Corporation)";
              html_content := page_few; success := true;
              error_message := None; search_time := 3000 |} = Found.
Proof.
  split; [|split].
  - apply (proj1 (sink_classification _)); reflexivity.
  - apply (proj1 (proj2 (sink_classification _))); reflexivity.
  - apply (proj2 (proj2 (sink_classification _))); reflexivity.
Defined.

(** C10. When the captured page has no result-count banner, or looking
    it up raises, the saturation signal is false: the list is updated by
    the increment, not by the descent, whatever the callback does
    afterwards, and in a pass that captured such a page the term is
    neither narrowed nor kept for another try. *)
Theorem unreadable_banner_is_unsaturated
  (str_lower : str -> str) (find_banner : str -> banner_lookup)
  (e : iter_env) (bt html : str) (w : word) :
  find_banner html = NoBanner \/ find_banner html = ParserRaises ->
  saturation_signal find_banner html = false /\
  (forall letter,
      state_of (record_and_advance find_banner e letter bt html w)
      = fst (step_word false w)) /\
  fst (step_word false w) <> descend w /\
  (completion_of (search_and_capture str_lower e w w) = Normal html ->
   state_of (search_iteration str_lower find_banner e bt w) = fst (step_word false w) /\
   (w <> [] -> all_lower w = true ->
    state_of (search_iteration str_lower find_banner e bt w) <> w)).
Proof.
  intros Hb.
  assert (Hs : saturation_signal find_banner html = false).
  { unfold saturation_signal. now destruct Hb as [-> | ->]. }
  split; [exact Hs|]. split; [|split].
  - intros letter. now rewrite record_and_advance_state, Hs.
  - intros H. pose proof (step_unsaturated_length w) as Hlen.
    rewrite H in Hlen. unfold descend in Hlen. rewrite length_app in Hlen.
    simpl in Hlen. lia.
  - intros Hc.
    rewrite (search_iteration_captured str_lower find_banner e bt html w Hc), Hs.
    split; [reflexivity|].
    intros Hne Hl H.
    destruct (step_word_forward false w Hl) as [H0 | Hlt]; [congruence|].
    rewrite H, lex_ltb_irrefl in Hlt. discriminate.
Qed.

Lemma unreadable_banner_is_unsaturated_witness :
  banner_of page_empty = NoBanner /\
  state_of (search_iteration lower_ascii banner_of (pass page_empty 0) nfp (lit "az"))
  = lit "b".
Proof.
  assert (Hb : banner_of page_empty = NoBanner) by reflexivity.
  split; [exact Hb|].
  destruct (unreadable_banner_is_unsaturated lower_ascii banner_of
              (pass page_empty 0) nfp page_empty (lit "az") (or_introl Hb))
    as (_ & _ & _ & H).
  destruct (H eq_refl) as [-> _]. reflexivity.
Defined.

Lemma preamble_events (p : event -> bool) (d : N) :
  (forall ms, p (Sleep ms) = false) -> p NewPage = false ->
  Forall (fun ev => p ev = false) (preamble d).
Proof.
  intros Hs Hn. unfold preamble. destruct (0 <? d); repeat constructor; auto.
Qed.

(** C9. Once the page has been created, a session that ends - by
    leaving the search loop, by returning early from set-up, or by an
    exception leaving its body - has closed the page as its last call,
    and has closed it once. *)
Theorem page_closed_on_every_exit
  (str_lower : str -> str) (find_banner : str -> banner_lookup)
  (se : setup_env) (script : list iter_env) (bt : str) (d : N) :
  new_page_r se = Ok tt ->
  snd (run_session str_lower find_banner se script bt d) <> Pending ->
  exists t',
    fst (run_session str_lower find_banner se script bt d) = t' ++ [ClosePage] /\
    count is_close t' = 0%nat.
Proof.
  intros Hnew Hend. rewrite run_session_shape in * by assumption.
  set (body := session_body str_lower find_banner se script bt tt) in *.
  exists (preamble d ++ trace_of body). split.
  - destruct (completion_of body); simpl in *;
      try (now rewrite app_assoc); congruence.
  - rewrite count_app.
    rewrite (count_zero is_close (preamble d)) by now apply preamble_events.
    rewrite count_zero; [reflexivity|]. apply session_body_never_closes.
Qed.

Lemma page_closed_on_every_exit_witness :
  (* the loop runs to its end *)
  (snd (run_session lower_ascii banner_of setup_ok
          (repeat (pass page_few 17) 26) nfp 0) = Normal tt /\
   exists t', fst (run_session lower_ascii banner_of setup_ok
                     (repeat (pass page_few 17) 26) nfp 0) = t' ++ [ClosePage] /\
              count is_close t' = 0%nat) /\
  (* set-up returns early *)
  (snd (run_session lower_ascii banner_of setup_type_missing [] nfp 7000) = Returned /\
   exists t', fst (run_session lower_ascii banner_of setup_type_missing [] nfp 7000)
              = t' ++ [ClosePage] /\
              count is_close t' = 0%nat) /\
  (* navigation raises *)
  (snd (run_session lower_ascii banner_of setup_goto_fails [] nfp 0) = Raised Exc /\
   exists t', fst (run_session lower_ascii banner_of setup_goto_fails [] nfp 0)
              = t' ++ [ClosePage] /\
              count is_close t' = 0%nat) /\
  (* a pass is interrupted *)
  (snd (run_session lower_ascii banner_of setup_ok
          [pass_interrupted page_few] nfp 0) = Raised BaseExc /\
   exists t', fst (run_session lower_ascii banner_of setup_ok
                     [pass_interrupted page_few] nfp 0) = t' ++ [ClosePage] /\
              count is_close t' = 0%nat).
Proof.
  repeat split; try (vm_compute; reflexivity);
    apply page_closed_on_every_exit; try reflexivity; vm_compute; discriminate.
Defined.

Lemma from_first_skip (p : event -> bool) (pre rest : list event) :
  Forall (fun ev => p ev = false) pre ->
  from_first p (pre ++ rest) = from_first p rest.
Proof.
  induction 1 as [|ev pre H _ IH]; simpl; auto. now rewrite H.
Qed.

Lemma delivered_none (t : list event) :
  Forall (fun ev => is_delivery ev = false) t -> delivered t = [].
Proof.
  induction 1 as [|ev t H _ IH]; simpl; auto. destruct ev; auto; discriminate.
Qed.

Lemma submitted_none (t : list event) :
  Forall (fun ev => is_fill ev = false) t -> submitted t = [].
Proof.
  induction 1 as [|ev t H _ IH]; simpl; auto. destruct ev; auto; discriminate.
Qed.

(** Step 4 when no attempt finds the type: the missed attempts, then
    [return]. *)
Lemma select_business_type_missing (se : setup_env) (bt : str) (s : unit) :
  forallb (type_missing se bt) (seq 0 5) = true ->
  select_business_type se bt s =
    (flat_map (missed_attempt se) (seq 0 5), s, Returned).
Proof.
  intros H. unfold select_business_type, try_except, bind.
  rewrite (lookup_type_missing se bt (seq 0 5) s H). simpl.
  now rewrite app_nil_r.
Qed.

Lemma missed_attempts_events (p : event -> bool) (se : setup_env) (attempts : list nat) :
  p (QuerySelector "#EntitySubTypeCode") = false ->
  p EvalOptions = false -> p (Sleep 2000) = false ->
  Forall (fun ev => p ev = false) (flat_map (missed_attempt se) attempts).
Proof.
  intros H1 H2 H3. induction attempts as [|i rest IH]; cbn [flat_map]; auto.
  apply Forall_app. split; auto. unfold missed_attempt.
  destruct (type_present_r se i) as [[|]|ex]; repeat constructor; auto.
Qed.

Lemma missed_attempts_lookups (se : setup_env) (attempts : list nat) :
  count is_type_lookup (flat_map (missed_attempt se) attempts) = List.length attempts.
Proof.
  induction attempts as [|i rest IH]; cbn [flat_map]; auto.
  rewrite count_app, IH. unfold missed_attempt. cbn [List.length].
  now destruct (type_present_r se i) as [[|]|ex].
Qed.

(** C8. When set-up gets as far as the business-type dropdown and none
    of the five attempts finds the requested option, the session makes
    exactly five look-ups, each followed by a two-second pause, and then
    returns: from the first look-up on, its calls are those five
    attempts and [page.close()]; nothing is submitted to the search
    field and the callback is never invoked. *)
Theorem missing_business_type_aborts
  (str_lower : str -> str) (find_banner : str -> banner_lookup)
  (se : setup_env) (script : list iter_env) (bt : str) (d : N) :
  new_page_r se = Ok tt ->
  completion_of (reach_type_selection se tt) = Normal tt ->
  forallb (type_missing se bt) (seq 0 5) = true ->
  let t := fst (run_session str_lower find_banner se script bt d) in
  from_first is_type_lookup t = flat_map (missed_attempt se) (seq 0 5) ++ [ClosePage] /\
  count is_type_lookup t = 5%nat /\
  count (fun ev => match ev with Sleep 2000 => true | _ => false end)
        (from_first is_type_lookup t) = 5%nat /\
  delivered t = [] /\
  submitted t = [] /\
  snd (run_session str_lower find_banner se script bt d)
  = match close_r se with Ok _ => Returned | Err ex => Raised ex end.
Proof.
  intros Hnew Hreach Hmiss.
  assert (Hbody : session_body str_lower find_banner se script bt tt =
                  (trace_of (reach_type_selection se tt)
                     ++ flat_map (missed_attempt se) (seq 0 5), tt, Returned)).
  { unfold session_body, setup_filters.
    apply bind_returned.
    destruct (reach_type_selection se tt) as [[t1 []] c1] eqn:E1.
    unfold completion_of in Hreach. simpl in Hreach. subst c1.
    rewrite (bind_normal _ _ _ _ _ _ E1).
    rewrite (bind_returned _ _ _ _ _ (select_business_type_missing se bt tt Hmiss)).
    reflexivity. }
  pose proof (reach_type_selection_emits se tt) as Hpre.
  set (pre := trace_of (reach_type_selection se tt)) in *.
  set (tries := flat_map (missed_attempt se) (seq 0 5)) in *.
  assert (Hrun : run_session str_lower find_banner se script bt d =
                 (preamble d ++ (pre ++ tries) ++ [ClosePage],
                  match close_r se with Ok _ => Returned | Err ex => Raised ex end)).
  { rewrite run_session_shape by assumption. now rewrite Hbody. }
  rewrite Hrun. cbv zeta. cbn [fst snd]. clear Hrun Hbody.
  assert (Hfrom : from_first is_type_lookup
                    (preamble d ++ (pre ++ tries) ++ [ClosePage])
                  = tries ++ [ClosePage]).
  { rewrite from_first_skip by (now apply preamble_events).
    rewrite <- app_assoc.
    rewrite from_first_skip
      by (eapply Forall_impl; [|exact Hpre]; now intros ev [_ H]).
    reflexivity. }
  split; [exact Hfrom|]. split; [|split; [|split; [|split]]].
  - rewrite !count_app.
    rewrite (count_zero is_type_lookup (preamble d)) by now apply preamble_events.
    rewrite (count_zero is_type_lookup pre)
      by (eapply Forall_impl; [|exact Hpre]; now intros ev [_ H]).
    unfold tries. now rewrite missed_attempts_lookups.
  - rewrite Hfrom. unfold tries, missed_attempt. simpl.
    repeat match goal with
           | |- context [type_present_r se ?i] =>
               destruct (type_present_r se i) as [[|]|?]
           end; reflexivity.
  - apply delivered_none.
    apply Forall_app; split; [now apply preamble_events|].
    apply Forall_app; split; [apply Forall_app; split|].
    + eapply Forall_impl; [|exact Hpre]. now intros [] [H _].
    + now apply missed_attempts_events.
    + now repeat constructor.
  - apply submitted_none.
    apply Forall_app; split; [now apply preamble_events|].
    apply Forall_app; split; [apply Forall_app; split|].
    + eapply Forall_impl; [|exact Hpre]. now intros [] [H _].
    + now apply missed_attempts_events.
    + now repeat constructor.
  - reflexivity.
Qed.

Lemma missing_business_type_aborts_witness :
  let t := fst (run_session lower_ascii banner_of setup_type_missing
                  (repeat (pass page_few 17) 26) nfp 0) in
  count is_type_lookup t = 5%nat /\ delivered t = [] /\ submitted t = [] /\
  snd (run_session lower_ascii banner_of setup_type_missing
         (repeat (pass page_few 17) 26) nfp 0) = Returned.
Proof.
  destruct (missing_business_type_aborts lower_ascii banner_of setup_type_missing
              (repeat (pass page_few 17) 26) nfp 0 eq_refl eq_refl eq_refl)
    as (_ & H1 & _ & H2 & H3 & H4).
  repeat split; assumption.
Defined.

(** ** The page-size raise *)

Section PageSizeFacts.

Variable str_lower : str -> str.
Variable find_banner : str -> banner_lookup.

Local Abbreviation submit_search := (submit_search str_lower).
Local Abbreviation search_and_capture := (search_and_capture str_lower).
Local Abbreviation record_and_advance := (record_and_advance find_banner).
Local Abbreviation process_term := (process_term str_lower find_banner).
Local Abbreviation search_iteration := (search_iteration str_lower find_banner).

Lemma try_except_normal {S A} (body handler : M S A) (s : S) (a : A) :
  completion_of (body s) = Normal a -> try_except body handler s = body s.
Proof.
  unfold try_except, completion_of. destruct (body s) as [[t s'] c]. simpl.
  now intros ->.
Qed.

Lemma setup_event_no_raise (ev : event) : setup_event ev -> no_page_size_raise ev.
Proof. destruct ev; simpl; auto; contradiction. Qed.

Lemma captcha_wait_no_raise (e : iter_env) (ks : list nat) :
  emits no_page_size_raise (captcha_wait e ks).
Proof. induction ks as [|k ks IH]; simpl; effects; auto; reflexivity. Qed.

Lemma submit_search_no_raise (e : iter_env) (w : str) :
  emits no_page_size_raise (submit_search e w).
Proof.
  unfold Session.submit_search; effects; auto using captcha_wait_no_raise;
    reflexivity.
Qed.

Lemma record_and_advance_no_raise (e : iter_env) (w bt html : str) :
  emits no_page_size_raise (record_and_advance e w bt html).
Proof.
  unfold Session.record_and_advance; effects; auto using advance_state_emits;
    reflexivity.
Qed.

Lemma raise_page_size_count (e : iter_env) (w : word) :
  count is_page_size_raise (trace_of (raise_page_size e (lit "a") w))
  = expected_raises e.
Proof.
  unfold expected_raises, raise_page_size, try_except, bind, call, ret, sleep, emit.
  simpl PyStr.eqb. cbv iota.
  destruct (count_results_r e) as [n|[|]]; simpl; auto.
  destruct (0 <? n); simpl; auto.
  destruct (page_size_r e) as [[]|[|]]; simpl; auto.
  destruct (wait_again_r e) as [[]|[|]]; simpl; auto.
Qed.

(** An [Exception] raised inside the page-size block stays inside it. *)
Lemma raise_page_size_contained (e : iter_env) (letter : str) (w : word) :
  completion_of (raise_page_size e letter w) <> Raised Exc.
Proof.
  unfold raise_page_size, try_except, bind, call, ret, sleep, emit, completion_of.
  destruct (PyStr.eqb letter (lit "a")); simpl; try discriminate.
  destruct (count_results_r e) as [n|[|]]; simpl; try discriminate.
  destruct (0 <? n); simpl; try discriminate.
  destruct (page_size_r e) as [[]|[|]]; simpl; try discriminate.
  destruct (wait_again_r e) as [[]|[|]]; simpl; discriminate.
Qed.

(** The calls of a pass over ["a"] whose [try] block ran to its end. *)
Lemma completed_first_pass (e : iter_env) (bt : str) :
  completion_of (process_term e (lit "a") bt (lit "a")) = Normal tt ->
  search_iteration e bt (lit "a") = process_term e (lit "a") bt (lit "a") /\
  count is_page_size_raise (trace_of (process_term e (lit "a") bt (lit "a")))
  = expected_raises e /\
  past_a (state_of (process_term e (lit "a") bt (lit "a"))).
Proof.
  intros H3.
  assert (Hit : search_iteration e bt (lit "a") = process_term e (lit "a") bt (lit "a")).
  { unfold Session.search_iteration. now apply try_except_normal with (a := tt). }
  split; [exact Hit|].
  destruct (completion_of (search_and_capture e (lit "a") (lit "a")))
    as [html|ex| |] eqn:Hc;
    try (exfalso; revert H3; unfold Session.process_term;
         rewrite bind_run, Hc; discriminate).
  split.
  - unfold Session.process_term in H3 |- *.
    destruct (bind_normal_inv _ _ _ _ H3) as (html' & Hc' & _ & -> & _).
    rewrite Hc in Hc'. injection Hc' as <-.
    unfold Session.search_and_capture in Hc |- *.
    destruct (bind_normal_inv _ _ _ _ Hc) as ([] & _ & Hc2 & -> & _).
    destruct (bind_normal_inv _ _ _ _ Hc2) as ([] & _ & _ & -> & _).
    rewrite !count_app, raise_page_size_count.
    rewrite (count_zero is_page_size_raise (trace_of (submit_search _ _ _)))
      by apply submit_search_no_raise.
    rewrite (count_zero is_page_size_raise (trace_of (record_and_advance _ _ _ _ _)))
      by apply record_and_advance_no_raise.
    rewrite (count_zero is_page_size_raise (trace_of (call _ _ _)))
      by (apply emits_call; reflexivity).
    lia.
  - rewrite <- Hit.
    rewrite (search_iteration_captured str_lower find_banner e bt html (lit "a") Hc).
    apply step_word_past_a; [reflexivity | discriminate].
Qed.

End PageSizeFacts.

Lemma with_local_run {S S' A} (s0 : S') (m : M S' A) (s : S) :
  with_local s0 m s = (trace_of (m s0), s, completion_of (m s0)).
Proof.
  unfold with_local, trace_of, completion_of. now destruct (m s0) as [[t s'] c].
Qed.

(** The calls of a session body whose set-up succeeded and whose first
    pass ran to its end: set-up, the first pass, the rest of the loop. *)
Lemma session_body_first_pass
  (str_lower : str -> str) (find_banner : str -> banner_lookup)
  (se : setup_env) (e : iter_env) (rest : list iter_env) (bt : str) :
  completion_of (setup_filters se bt tt) = Normal tt ->
  completion_of (search_iteration str_lower find_banner e bt (lit "a")) = Normal tt ->
  trace_of (session_body str_lower find_banner se (e :: rest) bt tt)
  = trace_of (setup_filters se bt tt)
      ++ trace_of (search_iteration str_lower find_banner e bt (lit "a"))
      ++ trace_of (search_loop str_lower find_banner rest bt
                     (state_of (search_iteration str_lower find_banner e bt (lit "a")))).
Proof.
  intros Hsetup Hfirst. unfold session_body.
  rewrite bind_run, Hsetup. unfold trace_of at 1. cbn [fst].
  f_equal. rewrite with_local_run. unfold trace_of at 1. cbn [fst].
  change (lit "a") with [letter_a].
  rewrite search_loop_cons, bind_run.
  change [letter_a] with (lit "a"). rewrite Hfirst. reflexivity.
Qed.

(** C3, as the code has it. In a session that gets through set-up and
    whose first pass (over ["a"]) runs to the end of its [try] block, the
    page size is raised in that first pass and nowhere else: once if
    result rows were counted after the search, not at all otherwise.
    The session's calls are set-up, the first pass, the later passes and
    the closing call, and only the first pass can hold the raise; after
    an update the enumerator never yields ["a"] again; an [Exception]
    raised by the attempt does not leave the page-size block. *)
Theorem page_size_raised_in_first_pass_only
  (str_lower : str -> str) (find_banner : str -> banner_lookup)
  (se : setup_env) (e : iter_env) (rest : list iter_env) (bt : str) (d : N) :
  new_page_r se = Ok tt ->
  completion_of (setup_filters se bt tt) = Normal tt ->
  completion_of (process_term str_lower find_banner e (lit "a") bt (lit "a")) = Normal tt ->
  let first := trace_of (search_iteration str_lower find_banner e bt (lit "a")) in
  let later :=
    trace_of (search_loop str_lower find_banner rest bt
                (state_of (search_iteration str_lower find_banner e bt (lit "a")))) in
  let t := fst (run_session str_lower find_banner se (e :: rest) bt d) in
  (exists before after,
      t = before ++ first ++ later ++ after /\
      count is_page_size_raise before = 0%nat /\
      count is_page_size_raise after = 0%nat) /\
  count is_page_size_raise first = expected_raises e /\
  count is_page_size_raise later = 0%nat /\
  count is_page_size_raise t = expected_raises e /\
  (count is_page_size_raise t <= 1)%nat /\
  (forall saturated w w',
      all_lower w = true -> w <> [] -> advance saturated w = Some w' ->
      w' <> lit "a") /\
  (forall letter w, completion_of (raise_page_size e letter w) <> Raised Exc).
Proof.
  intros Hnew Hsetup H3.
  destruct (completed_first_pass str_lower find_banner e bt H3) as (Hit & Hcount & Hpast).
  intros first later t.
  assert (Hfirst : count is_page_size_raise first = expected_raises e).
  { unfold first. now rewrite Hit. }
  assert (Hlater : count is_page_size_raise later = 0%nat).
  { apply count_zero. apply search_loop_no_raise. now rewrite Hit. }
  assert (Hdec : exists before after,
             t = before ++ first ++ later ++ after /\
             count is_page_size_raise before = 0%nat /\
             count is_page_size_raise after = 0%nat).
  { exists (preamble d ++ trace_of (setup_filters se bt tt)).
    assert (Hbefore : count is_page_size_raise
                        (preamble d ++ trace_of (setup_filters se bt tt)) = 0%nat).
    { rewrite count_app.
      rewrite (count_zero is_page_size_raise (preamble d))
        by now apply preamble_events.
      rewrite count_zero; [reflexivity|].
      eapply Forall_impl; [|apply setup_filters_emits].
      apply setup_event_no_raise. }
    assert (Hbody := session_body_first_pass str_lower find_banner se e rest bt Hsetup).
    rewrite Hit, H3 in Hbody. specialize (Hbody eq_refl). rewrite <- Hit in Hbody.
    fold first in Hbody. fold later in Hbody.
    unfold t. rewrite run_session_shape by assumption. rewrite Hbody.
    destruct (completion_of (session_body str_lower find_banner se (e :: rest) bt tt));
      [exists [ClosePage] | exists [ClosePage] | exists [ClosePage] | exists []];
      cbn [fst]; rewrite <- ?app_assoc, ?app_nil_r; auto. }
  split; [exact Hdec|]. split; [exact Hfirst|]. split; [exact Hlater|].
  assert (Ht : count is_page_size_raise t = expected_raises e).
  { destruct Hdec as (before & after & -> & Hb & Ha).
    rewrite !count_app, Hb, Ha, Hfirst, Hlater. lia. }
  split; [exact Ht|]. split; [|split].
  - rewrite Ht. unfold expected_raises.
    destruct (count_results_r e) as [n|]; [destruct (0 <? n)|]; lia.
  - intros saturated w w' Hl Hne Ha.
    destruct (advance_inv _ _ _ Ha) as [<- Hne'].
    apply str_eqb_neq. apply past_a_not_a. now apply step_word_past_a.
  - intros letter w. apply raise_page_size_contained.
Qed.

Lemma page_size_raised_in_first_pass_only_witness :
  let script := pass_no_size_control page_full 200 :: repeat (pass page_few 17) 30 in
  let t := fst (run_session lower_ascii banner_of setup_ok script nfp 0) in
  page_size_r (pass_no_size_control page_full 200) = Err Exc /\
  count is_page_size_raise t = 1%nat.
Proof.
  intros script t. split; [reflexivity|].
  destruct (page_size_raised_in_first_pass_only lower_ascii banner_of setup_ok
              (pass_no_size_control page_full 200) (repeat (pass page_few 17) 30)
              nfp 0 eq_refl eq_refl eq_refl)
    as (_ & _ & _ & H & _).
  exact H.
Defined.

(** A session whose first page shows no result rows runs through all 26
    letters without ever raising the page size: the raise is guarded by
    the row count. *)
Lemma page_size_not_raised_without_rows :
  let r := run_session lower_ascii banner_of setup_ok
             (repeat (pass page_empty 0) 26) nfp 0 in
  snd r = Normal tt /\
  submitted (fst r) = alphabet /\
  count is_page_size_raise (fst r) = 0%nat /\
  count is_page_size_raise (fst r) <> 1%nat.
Proof.
  vm_compute. repeat split. discriminate.
Qed.

(** ** The per-term exception handler *)

(** A pass whose search raises an [Exception] before the page is
    captured ends in the handler: the error is logged, nothing is
    delivered after it, and [search_word] is what it was, so the next
    pass of the loop takes the same term again. *)
Lemma failed_pass_keeps_term
  (str_lower : str -> str) (find_banner : str -> banner_lookup)
  (e : iter_env) (bt : str) (w : word) :
  completion_of (search_and_capture str_lower e w w) = Raised Exc ->
  search_iteration str_lower find_banner e bt w
  = (trace_of (search_and_capture str_lower e w w) ++ [LogError w; Sleep 5000],
     w, Normal tt).
Proof.
  intros Hc. unfold search_iteration, process_term, try_except.
  rewrite bind_run, Hc, (search_and_capture_keeps str_lower e w w).
  reflexivity.
Qed.

Lemma submitted_app (t u : list event) :
  submitted (t ++ u) = submitted t ++ submitted u.
Proof.
  induction t as [|ev t IH]; simpl; auto. destruct ev; simpl; now rewrite ?IH.
Qed.

Lemma delivered_app (t u : list event) :
  delivered (t ++ u) = delivered t ++ delivered u.
Proof.
  induction t as [|ev t IH]; simpl; auto. destruct ev; simpl; now rewrite ?IH.
Qed.

Lemma failed_fill_pass :
  search_iteration lower_ascii banner_of (pass_fill_fails page_few) nfp (lit "a")
  = (failed_fill_calls, lit "a", Normal tt).
Proof. reflexivity. Qed.

(** While filling keeps raising, the loop stays on ["a"]. *)
Lemma stalled_loop (n : nat) :
  search_loop lower_ascii banner_of (repeat (pass_fill_fails page_few) n) nfp (lit "a")
  = (List.concat (repeat failed_fill_calls n), lit "a", Pending).
Proof.
  induction n as [|n IH]; [reflexivity|].
  cbn [repeat List.concat]. change (lit "a") with [letter_a] at 1.
  rewrite search_loop_cons.
  change [letter_a] with (lit "a").
  rewrite (bind_normal _ _ _ _ _ _ failed_fill_pass), IH. reflexivity.
Qed.

Lemma stalled_calls (n : nat) :
  submitted (List.concat (repeat failed_fill_calls n)) = repeat (lit "a") n /\
  delivered (List.concat (repeat failed_fill_calls n)) = [] /\
  count is_error_log (List.concat (repeat failed_fill_calls n)) = n.
Proof.
  induction n as [|n (IH1 & IH2 & IH3)]; [now repeat split|].
  cbn [repeat List.concat].
  rewrite submitted_app, delivered_app, count_app, IH1, IH2, IH3.
  now repeat split.
Qed.

(** C6, at the failing input. When filling the search field raises in
    the first pass only, the session does not go on to ["b"]: it
    searches ["a"] a second time and delivers its result then. When
    filling raises in every pass, the session never leaves ["a"]: after
    any number [n] of passes it is still running, has submitted ["a"]
    [n] times, logged [n] errors and delivered nothing. *)
Theorem failed_term_is_retried_not_skipped :
  (let r := run_session lower_ascii banner_of setup_ok
              (pass_fill_fails page_few :: repeat (pass page_few 17) 26) nfp 0 in
   snd r = Normal tt /\
   submitted (fst r) = lit "a" :: alphabet /\
   List.length (delivered (fst r)) = 26%nat /\
   count is_error_log (fst r) = 1%nat) /\
  (forall n,
      let r := run_session lower_ascii banner_of setup_ok
                 (repeat (pass_fill_fails page_few) n) nfp 0 in
      snd r = Pending /\
      submitted (fst r) = repeat (lit "a") n /\
      delivered (fst r) = [] /\
      count is_error_log (fst r) = n).
Proof.
  split; [vm_compute; repeat split|].
  intros n.
  assert (Hsetup : setup_filters setup_ok nfp tt
                   = (trace_of (setup_filters setup_ok nfp tt), tt, Normal tt))
    by reflexivity.
  assert (Hbody : session_body lower_ascii banner_of setup_ok
                    (repeat (pass_fill_fails page_few) n) nfp tt
                  = (trace_of (setup_filters setup_ok nfp tt)
                       ++ List.concat (repeat failed_fill_calls n), tt, Pending)).
  { unfold session_body.
    rewrite (bind_normal _ _ _ _ _ _ Hsetup), with_local_run, stalled_loop.
    reflexivity. }
  set (before := preamble 0 ++ trace_of (setup_filters setup_ok nfp tt)).
  assert (Hrun : run_session lower_ascii banner_of setup_ok
                   (repeat (pass_fill_fails page_few) n) nfp 0
                 = (before ++ List.concat (repeat failed_fill_calls n), Pending)).
  { rewrite run_session_shape by reflexivity. rewrite Hbody.
    unfold before. now rewrite <- app_assoc. }
  cbv zeta. rewrite Hrun. cbn [fst snd].
  destruct (stalled_calls n) as (H1 & H2 & H3).
  rewrite submitted_app, delivered_app, count_app, H1, H2, H3.
  repeat split.
Qed.

(** The same handler behaviour seen from the page-size block: when the
    first pass fails after the raise, ["a"] is searched again and the
    page size is raised a second time. *)
Example page_size_raised_again_after_failed_pass :
  let r := run_session lower_ascii banner_of setup_ok
             [pass_capture_fails page_few 17; pass page_few 17] nfp 0 in
  submitted (fst r) = [lit "a"; lit "a"] /\
  count is_page_size_raise (fst r) = 2%nat.
Proof. vm_compute. split; reflexivity. Qed.

(** * Further properties *)

(** ** The enumeration covers every prefix *)

Section WalkFacts.

Lemma step_word_finishes (saturated : bool) (w : word) :
  all_lower w = true -> snd (step_word saturated w) = true.
Proof.
  intros Hl. destruct saturated; [reflexivity|].
  destruct (word_shape w) as [[k ->] | (p & c & k & -> & Hc)].
  - now rewrite step_rollover.
  - rewrite all_lower_app in Hl. apply andb_true_iff in Hl as [_ Hl].
    simpl in Hl. apply andb_true_iff in Hl as [Hl _].
    now rewrite step_increment.
Qed.

Lemma lower_not_after_z (d : letter) : is_lower d = true -> (letter_z <? d) = false.
Proof.
  unfold is_lower, letter_z. intros H. apply andb_true_iff in H as [_ H].
  apply N.leb_le in H. apply N.ltb_ge. exact H.
Qed.

(** A lowercase word that comes after a run of ['z'] extends it. *)
Lemma after_z_run (k : nat) (s : word) :
  all_lower s = true -> lex_ltb (repeat letter_z k) s = true ->
  prefixb (repeat letter_z k) s = true.
Proof.
  revert s. induction k as [|k IH]; intros s Hl H; [reflexivity|].
  destruct s as [|d s]; [discriminate|].
  simpl in *. apply andb_true_iff in Hl as [Hd Hl].
  rewrite (lower_not_after_z d Hd) in H. simpl in H.
  apply andb_true_iff in H as [-> H]. simpl. now apply IH.
Qed.

(** A lowercase word after [w] is also at or after [w ++ "a"]. *)
Lemma after_descend (w s : word) :
  all_lower s = true -> lex_ltb w s = true -> lex_le (descend w) s.
Proof.
  unfold descend, lex_le. revert s. induction w as [|c w IH]; intros [|d s] Hl H;
    try discriminate; simpl in *.
  - apply andb_true_iff in Hl as [Hd Hl].
    unfold is_lower in Hd. apply andb_true_iff in Hd as [Hd _].
    apply N.leb_le in Hd.
    destruct (N.eq_dec letter_a d) as [<-|Hne].
    + destruct s; [now left | right; reflexivity].
    + right. replace (letter_a <? d) with true; auto.
      symmetry. apply N.ltb_lt. lia.
  - apply andb_true_iff in Hl as [_ Hl].
    apply orb_true_iff in H as [H | H]; [right; now rewrite H|].
    apply andb_true_iff in H as [Hcd H]. apply N.eqb_eq in Hcd. subst d.
    destruct (IH s Hl H) as [-> | Hlt]; [now left | right].
    now rewrite N.eqb_refl, Hlt, orb_true_r.
Qed.

(** A lowercase word after [p ++ c :: zz..z] extends it, or is at or
    after [p ++ [c + 1]]. *)
Lemma after_increment (p : word) (c : letter) (k : nat) (s : word) :
  all_lower s = true ->
  lex_ltb (p ++ c :: repeat letter_z k) s = true ->
  prefixb (p ++ c :: repeat letter_z k) s = true \/ lex_le (p ++ [c + 1]) s.
Proof.
  unfold lex_le. revert s. induction p as [|x p IH]; intros [|d s] Hl H;
    try discriminate; simpl in *; apply andb_true_iff in Hl as [Hd Hl].
  - apply orb_true_iff in H as [H | H].
    + right. apply N.ltb_lt in H.
      destruct (N.eq_dec (c + 1) d) as [<-|Hne].
      * destruct s; [now left | right]. now rewrite N.ltb_irrefl, N.eqb_refl.
      * right. replace (c + 1 <? d) with true; auto.
        symmetry. apply N.ltb_lt. lia.
    + left. apply andb_true_iff in H as [-> H]. simpl. now apply after_z_run.
  - apply orb_true_iff in H as [H | H]; [right; right; now rewrite H|].
    apply andb_true_iff in H as [Hxd H]. rewrite Hxd. simpl.
    apply N.eqb_eq in Hxd. subst d.
    destruct (IH s Hl H) as [Hp | [-> | Hlt]]; auto.
    right. right. now rewrite Hlt, orb_true_r.
Qed.

(** What the update leaves still to be searched: a lowercase word after
    [w] is covered by [w] itself (it extends [w], found unsaturated), or
    it is at or after the next term. *)
Lemma update_skips_nothing (saturated : bool) (w s : word) :
  all_lower w = true -> all_lower s = true -> lex_ltb w s = true ->
  (saturated = false /\ prefixb w s = true) \/
  (fst (step_word saturated w) <> [] /\ lex_le (fst (step_word saturated w)) s).
Proof.
  intros Hw Hs H. destruct saturated.
  - right. split; [simpl; unfold descend; now destruct w|].
    now apply after_descend.
  - destruct (advance_unsaturated_cases w Hw)
      as [(k & -> & _ & _) | (p & c & k & -> & Hc & Hcl & Hp & Ha & _)].
    + left. split; auto. now apply after_z_run.
    + destruct (advance_inv _ _ _ Ha) as [Hst Hne].
      destruct (after_increment p c k s Hs H) as [Hpre | Hle]; [now left|].
      right. rewrite Hst. now split.
Qed.

Lemma prefixb_refl (s : word) : prefixb s s = true.
Proof. induction s as [|c s IH]; simpl; auto. now rewrite N.eqb_refl. Qed.

Lemma covered_later (x : word * bool) (l : list (word * bool)) (s : word) :
  covered l s -> covered (x :: l) s.
Proof. intros (p & b & Hin & H). exists p, b. split; [now right | exact H]. Qed.

(** Loop invariant of the walk: once it has ended, everything at or
    after the term it started from is covered. *)
Lemma walk_covers_from (signals : list bool) :
  forall (w : word) (l : list (word * bool)),
    all_lower w = true -> w <> [] ->
    walk signals w = (l, true) ->
    forall s, all_lower s = true -> lex_le w s -> covered l s.
Proof.
  induction signals as [|b rest IH]; intros w l Hw Hne Hwalk s Hs Hle.
  - destruct w; [congruence | discriminate].
  - destruct w as [|c r]; [congruence|]. cbn [walk] in Hwalk.
    destruct (walk rest (fst (step_word b (c :: r)))) as [l' ended] eqn:E.
    injection Hwalk as <- ->.
    destruct Hle as [<- | Hlt].
    + exists (c :: r), b. split; [now left|]. split; [apply prefixb_refl | now left].
    + destruct (update_skips_nothing b (c :: r) s Hw Hs Hlt) as [[-> Hpre] | [Hne' Hle']].
      * exists (c :: r), false. split; [now left|]. auto.
      * apply covered_later.
        apply (IH (fst (step_word b (c :: r)))); auto.
        now apply step_word_lower.
Qed.

End WalkFacts.

(** X1. When the walk from ["a"] has ended, every non-empty lowercase
    string was searched itself or has a prefix that was searched and
    found unsaturated: the enumeration leaves no gap. *)
Theorem walk_covers_every_string (signals : list bool) (l : list (word * bool)) (s : word) :
  walk signals (lit "a") = (l, true) ->
  s <> [] -> all_lower s = true ->
  covered l s.
Proof.
  intros Hwalk Hne Hs.
  apply (walk_covers_from signals (lit "a") l); auto; try discriminate.
  destruct (lower_from_a s Hs Hne) as [-> | H]; [now left | now right].
Qed.

Lemma walk_covers_every_string_witness :
  covered
    (fst (walk (true :: repeat false 51) (lit "a")))
    (lit "aardvark").
Proof.
  apply (walk_covers_every_string (true :: repeat false 51)).
  - vm_compute. reflexivity.
  - discriminate.
  - reflexivity.
Defined.

(** ** Terms are met in increasing order *)

Lemma walk_head (signals : list bool) (w : word) :
  HdRel lex_lt w (List.map fst (fst (walk signals w))) \/
  exists l, List.map fst (fst (walk signals w)) = w :: l.
Proof.
  destruct w as [|c r]; [left; destruct signals; constructor|].
  destruct signals as [|b rest]; [left; constructor|].
  right. cbn [walk].
  destruct (walk rest (fst (step_word b (c :: r)))) as [l ended].
  now exists (List.map fst l).
Qed.

Lemma walk_sorted (signals : list bool) :
  forall w, all_lower w = true ->
            Sorted lex_lt (List.map fst (fst (walk signals w))).
Proof.
  induction signals as [|b rest IH]; intros w Hl.
  - destruct w; constructor.
  - destruct w as [|c r]; [constructor|]. cbn [walk].
    destruct (step_word_forward b (c :: r) Hl) as [E | Hlt].
    + rewrite E. replace (walk rest []) with (@nil (word * bool), true)
        by (destruct rest; reflexivity).
      repeat constructor.
    + pose proof (IH (fst (step_word b (c :: r))) (step_word_lower b _ Hl)) as Hs.
      pose proof (walk_head rest (fst (step_word b (c :: r)))) as Hh.
      destruct (walk rest (fst (step_word b (c :: r)))) as [l ended].
      cbn [fst List.map] in *. constructor; auto.
      destruct Hh as [Hh | [l' ->]]; [|now constructor].
      destruct (List.map fst l) as [|x l']; constructor.
      inversion Hh; subst. unfold lex_lt in *. eapply lex_ltb_trans; eauto.
Qed.

(** X2. The terms of a walk from a lowercase word come in strictly
    increasing dictionary order, so no term is met twice. *)
Theorem walk_terms_increase (signals : list bool) (w : word) :
  all_lower w = true ->
  StronglySorted lex_lt (List.map fst (fst (walk signals w))) /\
  NoDup (List.map fst (fst (walk signals w))).
Proof.
  intros Hl.
  assert (Hs : StronglySorted lex_lt (List.map fst (fst (walk signals w)))).
  { apply Sorted_StronglySorted; [|now apply walk_sorted].
    intros x y z. unfold lex_lt. apply lex_ltb_trans. }
  split; [exact Hs|].
  induction Hs as [|x l Hs IH Hall]; constructor; auto.
  intros Hin. rewrite Forall_forall in Hall. specialize (Hall x Hin).
  unfold lex_lt in Hall. now rewrite lex_ltb_irrefl in Hall.
Qed.

Lemma walk_terms_increase_witness :
  NoDup (List.map fst (fst (walk [true; false; true; true; false; false] (lit "y")))).
Proof.
  exact (proj2 (walk_terms_increase [true; false; true; true; false; false]
                  (lit "y") eq_refl)).
Defined.

(** ** Sessions in which every pass succeeds *)

Section QuietFacts.

Variable str_lower : str -> str.
Variable find_banner : str -> banner_lookup.

Local Abbreviation search_iteration := (search_iteration str_lower find_banner).
Local Abbreviation search_loop := (search_loop str_lower find_banner).
Local Abbreviation signal_of := (signal_of find_banner).

(** A pass that succeeds submits its term once, delivers one result for
    it, and leaves the list updated by the page's saturation signal. *)
Lemma quiet_pass (e : iter_env) (bt : str) (w : word) :
  pass_succeeds str_lower e = true -> all_lower w = true ->
  exists t,
    search_iteration e bt w = (t, fst (step_word (signal_of e) w), Normal tt) /\
    submitted t = [w] /\
    delivered t = [make_result e w bt (page_of e)].
Proof.
  intros Hq Hl. unfold pass_succeeds in Hq.
  repeat (apply andb_true_iff in Hq; destruct Hq as [Hq ?]).
  unfold Quiet.signal_of, page_of.
  pose proof (fun b => step_word_finishes b w Hl) as Hfin.
  unfold Session.search_iteration, process_term, search_and_capture, submit_search,
    raise_page_size, record_and_advance, advance_state, on_error,
    try_except, bind, call, ret, sleep, emit.
  destruct (content_before_r e) as [before|]; [|discriminate].
  apply negb_true_iff in Hq. rewrite Hq.
  destruct (fill_r e) as [[]|]; [|discriminate].
  destruct (search_button_r e) as [present|]; [|discriminate].
  destruct (click_r e) as [[]|]; [|discriminate].
  destruct (content_after_r e) as [html|]; [|discriminate].
  destruct (callback_r e) as [[]|]; [|discriminate].
  destruct present;
    destruct (wait_results_r e) as [[]|[|]]; try discriminate;
    destruct (PyStr.eqb w (lit "a"));
    try (destruct (count_results_r e) as [n|[|]]; try discriminate;
         [destruct (0 <? n);
          [destruct (page_size_r e) as [[]|[|]]; try discriminate;
           [destruct (wait_again_r e) as [[]|[|]]; try discriminate|]|]|]);
    simpl;
    specialize (Hfin (saturation_signal find_banner html));
    destruct (step_word (saturation_signal find_banner html) w) as [w' fin];
    simpl in Hfin; subst fin;
    eexists; (split; [reflexivity | split; reflexivity]).
Qed.

End QuietFacts.

Section QuietSessions.

Variable str_lower : str -> str.
Variable find_banner : str -> banner_lookup.

Local Abbreviation search_iteration := (search_iteration str_lower find_banner).
Local Abbreviation search_loop := (search_loop str_lower find_banner).
Local Abbreviation signal_of := (signal_of find_banner).
Local Abbreviation run_session := (run_session str_lower find_banner).
Local Abbreviation session_body := (session_body str_lower find_banner).

(** The loop over passes that succeed is the walk over their signals. *)
Lemma quiet_loop (bt : str) (script : list iter_env) :
  forall w,
    forallb (pass_succeeds str_lower) script = true -> all_lower w = true ->
    submitted (trace_of (search_loop script bt w))
    = List.map fst (fst (walk (List.map signal_of script) w)) /\
    delivered (trace_of (search_loop script bt w))
    = results_along script (List.map fst (fst (walk (List.map signal_of script) w))) bt /\
    completion_of (search_loop script bt w)
    = (if snd (walk (List.map signal_of script) w) then Normal tt else Pending).
Proof.
  induction script as [|e rest IH]; intros w Hq Hl.
  - destruct w; repeat split.
  - destruct w as [|c r]; [repeat split|].
    cbn [forallb] in Hq. apply andb_true_iff in Hq as [He Hrest].
    destruct (quiet_pass str_lower find_banner e bt (c :: r) He Hl)
      as (t & Hpass & Hsub & Hdel).
    rewrite search_loop_cons, (bind_normal _ _ _ _ _ _ Hpass).
    cbn [List.map walk].
    specialize (IH (fst (step_word (signal_of e) (c :: r))) Hrest
                  (step_word_lower _ _ Hl)).
    destruct IH as (IH1 & IH2 & IH3).
    destruct (walk (List.map signal_of rest) (fst (step_word (signal_of e) (c :: r))))
      as [l ended].
    unfold trace_of, completion_of in *. cbn [fst snd List.map results_along] in *.
    rewrite submitted_app, delivered_app, Hsub, Hdel, IH1, IH2, IH3.
    repeat split.
Qed.

(** A session body that gets through set-up is set-up followed by the loop. *)
Lemma session_body_reaches_loop (se : setup_env) (script : list iter_env) (bt : str) :
  completion_of (setup_filters se bt tt) = Normal tt ->
  session_body se script bt tt
  = (trace_of (setup_filters se bt tt) ++ trace_of (search_loop script bt (lit "a")),
     tt,
     completion_of (search_loop script bt (lit "a"))).
Proof.
  intros Hsetup. unfold Session.session_body.
  rewrite bind_run, Hsetup, with_local_run.
  unfold trace_of at 2, completion_of at 1, state_of at 1. cbn [fst snd].
  now destruct (state_of (setup_filters se bt tt)).
Qed.

(** A session that gets through set-up: preamble, set-up, the loop and,
    unless the loop is still running, [page.close()]. *)
Lemma run_session_reaches_loop (se : setup_env) (script : list iter_env) (bt : str) (d : N) :
  new_page_r se = Ok tt ->
  completion_of (setup_filters se bt tt) = Normal tt ->
  run_session se script bt d =
    match completion_of (search_loop script bt (lit "a")) with
    | Pending =>
        ((preamble d ++ trace_of (setup_filters se bt tt))
           ++ trace_of (search_loop script bt (lit "a")),
         Pending)
    | c =>
        ((preamble d ++ trace_of (setup_filters se bt tt))
           ++ trace_of (search_loop script bt (lit "a")) ++ [ClosePage],
         match close_r se with
         | Ok _ => c
         | Err ex => Raised ex
         end)
    end.
Proof.
  intros Hnew Hsetup.
  rewrite run_session_shape by assumption.
  rewrite session_body_reaches_loop by assumption.
  remember (trace_of (setup_filters se bt tt)) as ts.
  remember (trace_of (search_loop script bt (lit "a"))) as tl.
  remember (completion_of (search_loop script bt (lit "a"))) as cl.
  unfold completion_of, trace_of. cbn [fst snd].
  destruct cl; now rewrite <- !app_assoc.
Qed.

Lemma setup_submits_nothing (se : setup_env) (bt : str) (d : N) :
  submitted (preamble d ++ trace_of (setup_filters se bt tt)) = [] /\
  delivered (preamble d ++ trace_of (setup_filters se bt tt)) = [].
Proof.
  split; [apply submitted_none | apply delivered_none];
    (apply Forall_app; split; [now apply preamble_events|]);
    (eapply Forall_impl; [|apply setup_filters_emits]); now intros [].
Qed.

End QuietSessions.

Lemma quiet_session_run
  (str_lower : str -> str) (find_banner : str -> banner_lookup)
  (se : setup_env) (script : list iter_env) (bt : str) (d : N) :
  new_page_r se = Ok tt ->
  completion_of (setup_filters se bt tt) = Normal tt ->
  forallb (pass_succeeds str_lower) script = true ->
  let r := run_session str_lower find_banner se script bt d in
  let wk := walk (List.map (signal_of find_banner) script) (lit "a") in
  submitted (fst r) = List.map fst (fst wk) /\
  delivered (fst r) = results_along script (List.map fst (fst wk)) bt /\
  snd r = (if snd wk
           then match close_r se with Ok _ => Normal tt | Err ex => Raised ex end
           else Pending).
Proof.
  intros Hnew Hsetup Hq r wk.
  destruct (quiet_loop str_lower find_banner bt script (lit "a") Hq eq_refl)
    as (H1 & H2 & H3).
  fold wk in H1, H2, H3.
  destruct (setup_submits_nothing se bt d) as [Hs Hd].
  unfold r. rewrite run_session_reaches_loop by assumption.
  rewrite H3.
  destruct (snd wk); cbn [fst snd];
    rewrite submitted_app, delivered_app, Hs, Hd;
    rewrite ?submitted_app, ?delivered_app, H1, H2;
    simpl; rewrite ?app_nil_r; repeat split.
Qed.

(** X3. In a session that gets through set-up and in which every pass
    succeeds, the terms submitted are exactly those of the enumerator's
    walk over the signals read off the captured pages; exactly one
    result is delivered per term, labelled with that term (not with the
    already updated one) and holding the page captured for it; and the
    session ends exactly when the walk does. *)
Theorem quiet_session_follows_walk
  (str_lower : str -> str) (find_banner : str -> banner_lookup)
  (se : setup_env) (script : list iter_env) (bt : str) (d : N) :
  new_page_r se = Ok tt ->
  completion_of (setup_filters se bt tt) = Normal tt ->
  forallb (pass_succeeds str_lower) script = true ->
  let r := run_session str_lower find_banner se script bt d in
  let wk := walk (List.map (signal_of find_banner) script) (lit "a") in
  submitted (fst r) = List.map fst (fst wk) /\
  delivered (fst r) = results_along script (List.map fst (fst wk)) bt /\
  snd r = (if snd wk
           then match close_r se with Ok _ => Normal tt | Err ex => Raised ex end
           else Pending).
Proof.
  intros Hnew Hsetup Hq. now apply quiet_session_run.
Qed.

Lemma quiet_session_follows_walk_witness :
  let r := run_session lower_ascii banner_of setup_ok
             (pass page_full 200 :: repeat (pass page_few 17) 51) nfp 0 in
  List.length (submitted (fst r)) = 52%nat /\
  List.map business_name (delivered (fst r))
  = List.map (fun w => w ++ lit " (Not-for-Profit Corporation)") (submitted (fst r)) /\
  snd r = Normal tt.
Proof.
  destruct (quiet_session_follows_walk lower_ascii banner_of setup_ok
              (pass page_full 200 :: repeat (pass page_few 17) 51) nfp 0
              eq_refl eq_refl eq_refl) as (H1 & H2 & H3).
  cbv zeta. rewrite H1, H2, H3. vm_compute. repeat split.
Defined.

Lemma walk_pairs (signals : list bool) :
  forall w,
    fst (walk signals w) = combine (List.map fst (fst (walk signals w))) signals.
Proof.
  induction signals as [|b rest IH]; intros w.
  - now destruct w.
  - destruct w as [|c r]; [reflexivity|]. cbn [walk].
    specialize (IH (fst (step_word b (c :: r)))).
    destruct (walk rest (fst (step_word b (c :: r)))) as [l ended].
    cbn [fst List.map combine] in *. now rewrite <- IH.
Qed.

(** X4. A session that gets through set-up, in which every pass
    succeeds, and which ends, has left no gap: for every non-empty
    lowercase string, that string itself was submitted, or one of its
    prefixes was submitted and the page captured for it showed no
    saturation. *)
Theorem quiet_session_is_complete
  (str_lower : str -> str) (find_banner : str -> banner_lookup)
  (se : setup_env) (script : list iter_env) (bt : str) (d : N) (s : word) :
  new_page_r se = Ok tt ->
  completion_of (setup_filters se bt tt) = Normal tt ->
  forallb (pass_succeeds str_lower) script = true ->
  snd (run_session str_lower find_banner se script bt d) <> Pending ->
  s <> [] -> all_lower s = true ->
  covered
    (combine (submitted (fst (run_session str_lower find_banner se script bt d)))
             (List.map (signal_of find_banner) script))
    s.
Proof.
  intros Hnew Hsetup Hq Hend Hne Hs.
  destruct (quiet_session_run str_lower find_banner se script bt d Hnew Hsetup Hq)
    as (H1 & _ & H3).
  rewrite H1, <- walk_pairs.
  destruct (walk (List.map (signal_of find_banner) script) (lit "a")) as [l ended] eqn:E.
  cbn [fst snd] in *. destruct ended; [|congruence].
  apply (walk_covers_from (List.map (signal_of find_banner) script) (lit "a") l);
    auto; try discriminate.
  destruct (lower_from_a s Hs Hne) as [-> | H]; [now left | now right].
Qed.

Lemma quiet_session_is_complete_witness :
  covered
    (combine
       (submitted (fst (run_session lower_ascii banner_of setup_ok
                          (pass page_full 200 :: repeat (pass page_few 17) 51) nfp 0)))
       (List.map (signal_of banner_of)
          (pass page_full 200 :: repeat (pass page_few 17) 51)))
    (lit "accueil").
Proof.
  apply (quiet_session_is_complete lower_ascii banner_of setup_ok
           (pass page_full 200 :: repeat (pass page_few 17) 51) nfp 0);
    try reflexivity; try discriminate.
Defined.

(** ** What a session delivers *)

Section DeliveryFacts.

Variable str_lower : str -> str.
Variable find_banner : str -> banner_lookup.

Local Abbreviation process_term := (process_term str_lower find_banner).
Local Abbreviation search_iteration := (search_iteration str_lower find_banner).
Local Abbreviation search_loop := (search_loop str_lower find_banner).

Ltac delivery_tac :=
  match goal with
  | |- delivery_for _ _ (Deliver _) => simpl; eauto
  | |- delivery_for _ _ _ => exact I
  end.

Lemma captcha_wait_deliveries (e : iter_env) (w bt : str) (ks : list nat) :
  emits (delivery_for w bt) (captcha_wait e ks).
Proof. induction ks as [|k ks IH]; simpl; effects; try delivery_tac; auto. Qed.

Lemma search_iteration_deliveries (e : iter_env) (bt : str) (w : word) :
  Forall (delivery_for w bt) (trace_of (search_iteration e bt w)).
Proof.
  unfold Session.search_iteration. apply emits_try_except.
  - unfold Session.process_term, search_and_capture, submit_search, raise_page_size,
      record_and_advance.
    effects; try delivery_tac;
      auto using captcha_wait_deliveries, advance_state_emits.
  - unfold on_error. effects; delivery_tac.
Qed.

Lemma search_loop_deliveries (bt : str) (script : list iter_env) (w : word) :
  all_lower w = true ->
  Forall (proper_delivery bt) (trace_of (search_loop script bt w)).
Proof.
  apply search_loop_invariant with (I := fun w => all_lower w = true).
  intros e w' Hl Hne. split; [|now apply search_iteration_lower].
  eapply Forall_impl; [|apply search_iteration_deliveries].
  intros [] H; simpl in *; auto.
  destruct H as (e' & html & ->). repeat split. exists w'. now repeat split.
Qed.

End DeliveryFacts.

Lemma delivered_proper (bt : str) (t : list event) :
  Forall (proper_delivery bt) t -> Forall (session_result bt) (delivered t).
Proof. induction 1 as [|ev t H _ IH]; simpl; auto. destruct ev; auto. Qed.

(** X5. Whatever the outside world answers, every result a session hands
    to the callback is marked successful, carries no error message and
    is named after a non-empty lowercase term and the session's business
    type; so the sink never classifies a result of a session as Error. *)
Theorem delivered_results_are_successful
  (str_lower : str -> str) (find_banner : str -> banner_lookup)
  (se : setup_env) (script : list iter_env) (bt : str) (d : N) :
  Forall (fun res => session_result bt res /\ classify res <> Error)
    (delivered (fst (run_session str_lower find_banner se script bt d))).
Proof.
  rewrite run_session_trace.
  assert (H : Forall (session_result bt)
                (delivered (trace_of (process_business_type_session
                                        str_lower find_banner se script bt d tt)))).
  { apply delivered_proper. apply session_emits; try exact I.
    - now intros [].
    - intros ms. exact I.
    - now apply search_loop_deliveries. }
  eapply Forall_impl; [|exact H].
  intros res Hr. split; [exact Hr|].
  destruct Hr as (Hs & _). unfold classify. rewrite Hs. simpl.
  now destruct (contains no_results_marker (html_content res)).
Qed.

Lemma session_without_setup
  (str_lower : str -> str) (find_banner : str -> banner_lookup)
  (se : setup_env) (script : list iter_env) (bt : str) (d : N) :
  completion_of (setup_filters se bt tt) <> Normal tt ->
  submitted (fst (run_session str_lower find_banner se script bt d)) = [] /\
  delivered (fst (run_session str_lower find_banner se script bt d)) = [].
Proof.
  intros Hsetup. rewrite run_session_trace.
  assert (Hbody : emits setup_event (session_body str_lower find_banner se script bt)).
  { intros s. unfold session_body. rewrite bind_run.
    pose proof (setup_filters_emits se bt s) as Hs. destruct s.
    destruct (completion_of (setup_filters se bt tt)) as [[]|ex| |]; auto.
    congruence. }
  assert (H : Forall (fun ev => is_fill ev = false /\ is_delivery ev = false)
                (trace_of (process_business_type_session
                             str_lower find_banner se script bt d tt))).
  { unfold process_business_type_session.
    apply emits_bind; [destruct (0 <? d); effects; now split|].
    intros _. apply emits_bind; [apply emits_call; now split|].
    intros _. apply emits_try_finally; [|apply emits_call; now split].
    eapply emits_weaken; [|exact Hbody]. now intros []. }
  split; [apply submitted_none | apply delivered_none];
    (eapply Forall_impl; [|exact H]); now intros ev [? ?].
Qed.



(** ** Filter set-up: what is fatal and what is not *)

Section SetupOutcome.

Variable se : setup_env.
Variable bt : str.

(** The cookie banner step swallows everything (bare [except]). *)
Lemma accept_cookies_run (s : unit) :
  exists t, accept_cookies se s = (t, s, Normal tt).
Proof.
  unfold accept_cookies, try_except_all, bind, call, ret.
  destruct (cookie_present_r se) as [[|]|ex]; simpl; eauto.
  destruct (cookie_click_r se) as [[]|ex]; simpl; eauto.
Qed.

Lemma open_advanced_run (s : unit) :
  optional_steps_uninterrupted se = true ->
  exists t, open_advanced se s = (t, s, Normal tt).
Proof.
  unfold optional_steps_uninterrupted. cbn [forallb].
  intros H. repeat (apply andb_true_iff in H; destruct H as [H ?]).
  unfold open_advanced, try_except, bind, call, ret, sleep, emit. simpl.
  unfold bind, call, ret, sleep, emit.
  destruct (advanced_click_r se) as [[]|[|]]; try discriminate;
    destruct (advanced_present_r se "#expandonodeW297") as [[|]|[|]];
    try discriminate; simpl; eauto;
    destruct (advanced_present_r se "text=Advanced") as [[|]|[|]];
    try discriminate; simpl; eauto;
    destruct (advanced_present_r se ".advanced-search-toggle") as [[|]|[|]];
    try discriminate; simpl; eauto.
Qed.

Lemma select_status_run (s : unit) :
  optional_steps_uninterrupted se = true ->
  exists t, select_status se s = (t, s, Normal tt).
Proof.
  unfold optional_steps_uninterrupted.
  intros H. repeat (apply andb_true_iff in H; destruct H as [H ?]).
  unfold select_status, try_except, bind, call, ret, sleep, emit.
  destruct (scroll_r se) as [[]|[|]]; try discriminate; simpl; eauto.
  destruct (status_present_r se) as [[|]|[|]]; try discriminate; simpl; eauto.
  destruct (status_select_r se) as [[]|[|]]; try discriminate; simpl; eauto.
Qed.

(** Attempts that miss are passed over, each at the cost of its calls. *)
Lemma lookup_type_skip (missed rest : list nat) (s : unit) :
  forallb (type_missing se bt) missed = true ->
  lookup_type se bt (missed ++ rest) s =
    (flat_map (missed_attempt se) missed ++ trace_of (lookup_type se bt rest s),
     state_of (lookup_type se bt rest s),
     completion_of (lookup_type se bt rest s)).
Proof.
  induction missed as [|i missed IH]; intros H.
  - simpl. now destruct (lookup_type se bt rest s) as [[t s'] c].
  - cbn [forallb] in H. apply andb_true_iff in H as [Hi Hrest].
    specialize (IH Hrest).
    unfold type_missing in Hi. cbn [app flat_map lookup_type]. unfold missed_attempt.
    unfold bind at 1. unfold call at 1.
    destruct (type_present_r se i) as [[|]|ex]; try discriminate.
    + destruct (type_options_r se i) as [options|ex]; try discriminate.
      apply negb_true_iff in Hi.
      unfold bind, call, ret, sleep, emit. rewrite Hi.
      unfold bind, sleep, emit in IH. rewrite IH. reflexivity.
    + unfold bind, call, ret, sleep, emit.
      unfold bind, sleep, emit in IH. rewrite IH. reflexivity.
Qed.

End SetupOutcome.

(** X7. The best-effort steps of set-up are not fatal: as long as none
    of their calls is interrupted, whether set-up completes, returns or
    raises is decided by navigation, register selection and
    business-type selection alone - a missing or refusing cookie banner,
    advanced toggle or status filter changes nothing. *)
Theorem optional_steps_are_not_fatal (se : setup_env) (bt : str) :
  optional_steps_uninterrupted se = true ->
  completion_of (setup_filters se bt tt) = completion_of (required_steps se bt tt).
Proof.
  intros H.
  destruct (accept_cookies_run se tt) as (t1 & E1).
  destruct (open_advanced_run se tt H) as (t2 & E2).
  destruct (select_status_run se tt H) as (t3 & E3).
  unfold setup_filters, reach_type_selection, required_steps, bind, call, sleep, emit,
    completion_of.
  destruct (goto_r se) as [[]|ex]; simpl; auto.
  rewrite E1, E2.
  destruct (select_register se tt) as [[t4 []] [[]|ex| |]]; simpl; auto.
  destruct (select_business_type se bt tt) as [[t5 []] [[]|ex| |]]; simpl; auto.
  now rewrite E3.
Qed.

Lemma optional_steps_are_not_fatal_witness :
  optional_steps_uninterrupted setup_bare = true /\
  completion_of (setup_filters setup_bare nfp tt) = Normal tt.
Proof.
  split; [reflexivity|].
  rewrite (optional_steps_are_not_fatal setup_bare nfp eq_refl). reflexivity.
Defined.

Lemma seq_split (k n : nat) :
  (k < n)%nat -> seq 0 n = seq 0 k ++ k :: seq (S k) (n - S k).
Proof.
  intros H. replace n with (k + S (n - S k))%nat at 1 by lia.
  rewrite seq_app. reflexivity.
Qed.

(** X8. When the business type first shows up at attempt [k] (of the
    five), after [k] attempts that missed it, step 4 makes those [k]
    attempts with their pauses, then reads the options and selects the
    type by label, without a further pause; if that selection is refused
    with an [Exception] the session returns at once, the remaining
    attempts unused. *)
Theorem business_type_found_at_attempt
  (se : setup_env) (bt : str) (k : nat) (options : list str) :
  (k < 5)%nat ->
  forallb (type_missing se bt) (seq 0 k) = true ->
  type_present_r se k = Ok true ->
  type_options_r se k = Ok options ->
  existsb (contains bt) options = true ->
  select_business_type se bt tt =
    (flat_map (missed_attempt se) (seq 0 k) ++ found_attempt bt,
     tt,
     match type_select_r se with
     | Ok _ => Normal tt
     | Err Exc => Returned
     | Err BaseExc => Raised BaseExc
     end).
Proof.
  intros Hk Hmiss Hp Ho Hin.
  unfold select_business_type, try_except.
  rewrite (seq_split k 5 Hk).
  unfold bind at 1. rewrite (lookup_type_skip se bt _ _ tt Hmiss).
  cbn [lookup_type]. unfold bind, call, ret, sleep, emit, trace_of, state_of,
    completion_of, found_attempt.
  rewrite Hp, Ho, Hin.
  destruct (type_select_r se) as [[]|[|]]; simpl;
    rewrite ?app_nil_r; reflexivity.
Qed.

Lemma business_type_found_at_attempt_witness :
  select_business_type setup_bare nfp tt =
    (flat_map (missed_attempt setup_bare) (seq 0 2) ++ found_attempt nfp,
     tt, Normal tt).
Proof.
  apply (business_type_found_at_attempt setup_bare nfp 2 business_types);
    try reflexivity. lia.
Defined.

(** ** The challenge pause *)

Section ChallengeFacts.

Variable e : iter_env.

(** Every round of the pause is a five-second sleep followed by one
    poll, and there are at most as many rounds as scheduled. *)
Lemma captcha_wait_rounds (ks : list nat) (s : word) :
  (count is_poll (trace_of (captcha_wait e ks s)) <= List.length ks)%nat /\
  slept (trace_of (captcha_wait e ks s))
  = 5000 * N.of_nat (count is_poll (trace_of (captcha_wait e ks s))).
Proof.
  induction ks as [|k ks [IH1 IH2]]; [split; reflexivity|].
  cbn [captcha_wait]. unfold bind, sleep, emit, call, ret.
  unfold trace_of in *.
  destruct (captcha_poll_r e k) as [[|]|ex]; cbn [fst snd app].
  - split; [unfold count; simpl; lia | reflexivity].
  - destruct (captcha_wait e ks s) as [[t s'] c]. cbn [fst snd app] in *.
    change (count is_poll (Sleep 5000 :: QuerySelector "#QueryString" :: t))
      with (S (count is_poll t)).
    cbn [slept List.length]. rewrite IH2. split; lia.
  - split; [unfold count; simpl; lia | reflexivity].
Qed.

(** A challenge that never clears costs all scheduled rounds, and the
    pause then ends normally. *)
Lemma captcha_wait_never_cleared (ks : list nat) (s : word) :
  (forall k, In k ks -> captcha_poll_r e k = Ok false) ->
  captcha_wait e ks s
  = (List.concat (List.map (fun _ => poll_round) ks), s, Normal tt).
Proof.
  induction ks as [|k ks IH]; intros H; [reflexivity|].
  cbn [captcha_wait]. unfold bind, sleep, emit, call.
  rewrite (H k (or_introl eq_refl)).
  rewrite IH by (intros k' Hk'; apply H; now right).
  reflexivity.
Qed.

End ChallengeFacts.

Lemma count_bind_le {S A B} (p : event -> bool) (n n' b : nat)
  (m : M S A) (k : A -> M S B) (s : S) :
  (n + n' <= b)%nat ->
  (forall s, (count p (trace_of (m s)) <= n)%nat) ->
  (forall a s, (count p (trace_of (k a s)) <= n')%nat) ->
  (count p (trace_of (bind m k s)) <= b)%nat.
Proof.
  intros Hb Hm Hk. rewrite bind_run. specialize (Hm s).
  destruct (completion_of (m s)) as [a|ex| |]; unfold trace_of at 1; cbn [fst];
    try lia.
  rewrite count_app. specialize (Hk a (state_of (m s))). lia.
Qed.

(** One pass polls the search field at most 12 times. *)
Lemma submit_search_polls (str_lower : str -> str) (e : iter_env) (letter : str) (s : word) :
  (count is_poll (trace_of (submit_search str_lower e letter s)) <= 12)%nat.
Proof.
  unfold submit_search.
  apply (count_bind_le is_poll 0 12); [lia | |].
  - intros s'. unfold call, trace_of, count. simpl. lia.
  - intros content s'. apply (count_bind_le is_poll 12 0); [lia | |].
    + intros s''. destruct (challenge_detected str_lower content).
      * destruct (captcha_wait_rounds e (seq 0 12) s'') as [H _].
        now rewrite length_seq in H.
      * unfold ret, trace_of, count. simpl. lia.
    + intros _ s''. rewrite count_zero; [lia|]. revert s''.
      change (emits (S:=word) (fun ev => is_poll ev = false)
                (call (Fill "#QueryString" letter) (fill_r e) ;;
                 present <- call (QuerySelector "#nodeW303") (search_button_r e) ;;
                 (if (present : bool)
                  then call (Click "#nodeW303") (click_r e)
                  else call (Click "button:has-text('Search')") (click_r e)) ;;
                 sleep 2000 ;;
                 try_except (call WaitResults (wait_results_r e)) (ret tt))).
      effects.
Qed.

(** X9. The pause on a challenge page is bounded: at most 12 polls of
    the search field, each after a five-second sleep, so at most 60
    seconds in all; and when the challenge never clears, the term is
    filled into the search field all the same right after the twelfth
    poll. *)
Theorem challenge_pause_is_bounded
  (str_lower : str -> str) (e : iter_env) (w : word) (before : str) :
  content_before_r e = Ok before ->
  challenge_detected str_lower before = true ->
  (count is_poll (trace_of (submit_search str_lower e w w)) <= 12)%nat /\
  (forall s,
      slept (trace_of (captcha_wait e (seq 0 12) s))
      = 5000 * N.of_nat (count is_poll (trace_of (captcha_wait e (seq 0 12) s))) /\
      slept (trace_of (captcha_wait e (seq 0 12) s)) <= 60000) /\
  ((forall k, (k < 12)%nat -> captcha_poll_r e k = Ok false) ->
   exists rest,
     trace_of (submit_search str_lower e w w)
     = Content :: List.concat (repeat poll_round 12)
         ++ Fill "#QueryString" w :: rest).
Proof.
  intros Hc Hd.
  assert (Hrounds := fun s => captcha_wait_rounds e (seq 0 12) s).
  split; [|split].
  - apply submit_search_polls.
  - intros s. destruct (Hrounds s) as [Hle Heq]. rewrite length_seq in Hle.
    split; [exact Heq|]. rewrite Heq. lia.
  - intros Hpolls.
    assert (Hpause : captcha_wait e (seq 0 12) w
                     = (List.concat (repeat poll_round 12), w, Normal tt)).
    { rewrite captcha_wait_never_cleared; [reflexivity|].
      intros k Hk. apply Hpolls. apply in_seq in Hk. lia. }
    unfold submit_search. unfold bind at 1. unfold call at 1. rewrite Hc, Hd.
    rewrite (bind_normal _ _ _ _ _ _ Hpause).
    unfold trace_of at 1. cbn [fst].
    rewrite bind_run. unfold call at 1 2 3 4 5 6 7 8.
    destruct (fill_r e) as [[]|ex];
      unfold completion_of at 1, trace_of at 1 2 3 4; cbn [fst snd app];
      eexists; rewrite <- ?app_assoc; reflexivity.
Qed.

Lemma challenge_pause_is_bounded_witness :
  exists rest,
    trace_of (submit_search lower_ascii (pass_challenged 0) (lit "a") (lit "a"))
    = Content :: List.concat (repeat poll_round 12)
        ++ Fill "#QueryString" (lit "a") :: rest.
Proof.
  refine (proj2 (proj2 (challenge_pause_is_bounded lower_ascii (pass_challenged 0)
                          (lit "a") (lit "Please solve the CAPTCHA")
                          eq_refl eq_refl)) _).
  intros k _. reflexivity.
Defined.

(** ** The handler of the loop body *)

Lemma captcha_wait_no_delivery (e : iter_env) (ks : list nat) :
  emits (fun ev => is_delivery ev = false) (captcha_wait e ks).
Proof. induction ks as [|k ks IH]; simpl; effects; auto. Qed.

Lemma search_and_capture_no_delivery (str_lower : str -> str) (e : iter_env) (w : str) :
  emits (fun ev => is_delivery ev = false) (search_and_capture str_lower e w).
Proof.
  unfold search_and_capture, submit_search, raise_page_size.
  effects; auto using captcha_wait_no_delivery.
Qed.

(** X10. An [Exception] raised anywhere in a pass stays in the pass:
    the pass ends normally or is left by a non-[Exception] interrupt,
    never by an [Exception]. When the exception comes before the page
    is captured, the handler logs the term and sleeps five seconds,
    nothing has been delivered, and [search_word] is what it was when
    the pass began. *)
Theorem exceptions_stay_in_the_pass
  (str_lower : str -> str) (find_banner : str -> banner_lookup)
  (e : iter_env) (bt : str) (w : word) :
  (completion_of (search_iteration str_lower find_banner e bt w) = Normal tt \/
   completion_of (search_iteration str_lower find_banner e bt w) = Raised BaseExc) /\
  (completion_of (search_and_capture str_lower e w w) = Raised Exc ->
   search_iteration str_lower find_banner e bt w
   = (trace_of (search_and_capture str_lower e w w) ++ [LogError w; Sleep 5000],
      w, Normal tt) /\
   delivered (trace_of (search_iteration str_lower find_banner e bt w)) = []).
Proof.
  split; [apply search_iteration_completion|].
  intros Hc.
  pose proof (failed_pass_keeps_term str_lower find_banner e bt w Hc) as Hrun.
  split; [exact Hrun|].
  rewrite Hrun. unfold trace_of at 1. cbn [fst].
  apply delivered_none. apply Forall_app. split.
  - apply search_and_capture_no_delivery.
  - now repeat constructor.
Qed.

Lemma exceptions_stay_in_the_pass_witness :
  search_iteration lower_ascii banner_of (pass_capture_fails page_few 17) nfp (lit "m")
  = (trace_of (search_and_capture lower_ascii (pass_capture_fails page_few 17)
                 (lit "m") (lit "m"))
       ++ [LogError (lit "m"); Sleep 5000],
     lit "m", Normal tt).
Proof.
  exact (proj1 (proj2 (exceptions_stay_in_the_pass lower_ascii banner_of
                         (pass_capture_fails page_few 17) nfp (lit "m")) eq_refl)).
Defined.

(** ** No term is delivered twice *)

Section DeliveryOrder.

Variable str_lower : str -> str.
Variable find_banner : str -> banner_lookup.
Variable bt : str.

Local Abbreviation search_and_capture := (search_and_capture str_lower).
Local Abbreviation record_and_advance := (record_and_advance find_banner).
Local Abbreviation search_iteration := (search_iteration str_lower find_banner).
Local Abbreviation search_loop := (search_loop str_lower find_banner).

(** What the part of a pass after the capture delivers. *)
Lemma record_and_advance_delivers (e : iter_env) (html : str) (w : word) :
  delivered (trace_of (record_and_advance e w bt html w)) = [] \/
  delivered (trace_of (record_and_advance e w bt html w))
  = [make_result e w bt html].
Proof.
  unfold Session.record_and_advance, advance_state, bind, call, emit, trace_of.
  destruct (step_word (saturation_signal find_banner html) w) as [w' []];
    simpl; auto.
  destruct (callback_r e) as [[]|ex]; simpl; auto.
Qed.

(** A pass delivers nothing, or delivers one result for its term and
    leaves the list updated. *)
Lemma pass_delivery (e : iter_env) (w : word) :
  (delivered (trace_of (search_iteration e bt w)) = [] /\
   (state_of (search_iteration e bt w) = w \/
    exists saturated,
      state_of (search_iteration e bt w) = fst (step_word saturated w))) \/
  (exists html saturated,
      delivered (trace_of (search_iteration e bt w)) = [make_result e w bt html] /\
      state_of (search_iteration e bt w) = fst (step_word saturated w)).
Proof.
  pose proof (search_and_capture_no_delivery str_lower e w w) as Hsc.
  apply delivered_none in Hsc.
  pose proof (search_and_capture_keeps str_lower e w w) as Hk.
  unfold Session.search_iteration, process_term, on_error, try_except, bind,
    sleep, emit.
  destruct (search_and_capture e w w) as [[t1 s1] c1].
  unfold trace_of, state_of in Hsc, Hk. cbn [fst snd] in Hsc, Hk. subst s1.
  destruct c1 as [html|[|]| |]; try (left; unfold trace_of, state_of; cbn [fst snd];
    rewrite ?delivered_app, ?Hsc; split; [reflexivity | now left]).
  pose proof (record_and_advance_delivers e html w) as Hd.
  pose proof (record_and_advance_state find_banner e w bt html w) as Hs.
  destruct (record_and_advance e w bt html w) as [[t2 s2] c2].
  unfold trace_of, state_of in *. cbn [fst snd] in *. subst s2.
  destruct c2 as [[]|[|]| |]; cbn [fst snd];
    rewrite ?delivered_app, ?Hsc; cbn [app];
    (destruct Hd as [-> | ->]; [left | right]; simpl; eauto).
Qed.

End DeliveryOrder.

Section DeliveryOrderLoop.

Variable str_lower : str -> str.
Variable find_banner : str -> banner_lookup.
Variable bt : str.

Local Abbreviation search_iteration := (search_iteration str_lower find_banner).
Local Abbreviation search_loop := (search_loop str_lower find_banner).

Lemma lex_lt_le_trans (u v x : word) :
  lex_ltb u v = true -> lex_le v x -> lex_ltb u x = true.
Proof. intros H [<- | H']; auto. eapply lex_ltb_trans; eauto. Qed.

Lemma lex_le_trans (u v x : word) : lex_le u v -> lex_le v x -> lex_le u x.
Proof.
  intros [<- | H] H'; auto. right. eapply lex_lt_le_trans; eauto.
Qed.

(** The terms the loop delivers results for, from [w] on: each at or
    after [w], in strictly increasing order. *)
Lemma loop_delivery_order (script : list iter_env) :
  forall w,
    all_lower w = true ->
    exists terms,
      List.map business_name (delivered (trace_of (search_loop script bt w)))
      = List.map (result_name bt) terms /\
      Forall (lex_le w) terms /\
      StronglySorted lex_lt terms /\
      Forall (fun term => all_lower term = true) terms.
Proof.
  induction script as [|e rest IH]; intros w Hl.
  - exists []. destruct w; repeat split; constructor.
  - destruct w as [|c r]; [exists []; repeat split; constructor|].
    rewrite search_loop_cons, bind_run.
    set (pass := search_iteration e bt (c :: r)).
    assert (Hnext : all_lower (state_of pass) = true)
      by now apply search_iteration_lower.
    destruct (IH (state_of pass) Hnext) as (terms & Hnames & Hge & Hsorted & Hlow).
    assert (Hrest : exists terms',
               List.map business_name
                 (delivered
                    (match completion_of pass with
                     | Normal _ => trace_of (search_loop rest bt (state_of pass))
                     | _ => []
                     end))
               = List.map (result_name bt) terms' /\
               Forall (lex_le (state_of pass)) terms' /\
               StronglySorted lex_lt terms' /\
               (state_of pass = [] -> terms' = []) /\
               Forall (fun term => all_lower term = true) terms').
    { destruct (completion_of pass);
        [exists terms | exists [] | exists [] | exists []];
        repeat split; try constructor; auto.
      intros E. rewrite E, search_loop_done in Hnames.
      now destruct terms. }
    clear terms Hnames Hge Hsorted Hlow.
    destruct Hrest as (terms & Hnames & Hge & Hsorted & Hempty & Hlow).
    assert (Htrace : delivered
                       (trace_of
                          match completion_of pass with
                          | Normal a =>
                              (trace_of pass ++ trace_of (search_loop rest bt (state_of pass)),
                               state_of (search_loop rest bt (state_of pass)),
                               completion_of (search_loop rest bt (state_of pass)))
                          | Raised ex => (trace_of pass, state_of pass, Raised ex)
                          | Returned => (trace_of pass, state_of pass, Returned)
                          | Pending => (trace_of pass, state_of pass, Pending)
                          end)
                     = delivered (trace_of pass)
                         ++ delivered
                              (match completion_of pass with
                               | Normal _ => trace_of (search_loop rest bt (state_of pass))
                               | _ => []
                               end)).
    { destruct (completion_of pass); unfold trace_of at 1; cbn [fst];
        now rewrite ?delivered_app, ?app_nil_r. }
    rewrite Htrace, map_app, Hnames. clear Htrace Hnames.
    destruct (pass_delivery str_lower find_banner bt e (c :: r))
      as [[Hd Hst] | (html & sat & Hd & Hst)]; fold pass in Hd, Hst; rewrite Hd.
    + exists terms. split; [reflexivity|]. split; [|split; assumption].
      destruct Hst as [E | [sat E]]; [now rewrite E in Hge|].
      destruct (step_word_forward sat (c :: r) Hl) as [E0 | Hlt].
      * rewrite E, E0 in Hempty. rewrite Hempty by reflexivity. constructor.
      * rewrite E in Hge. eapply Forall_impl; [|exact Hge].
        intros x Hx. right. eapply lex_lt_le_trans; eauto.
    + exists ((c :: r) :: terms).
      assert (Hlater : Forall (lex_lt (c :: r)) terms).
      { destruct (step_word_forward sat (c :: r) Hl) as [E0 | Hlt].
        - rewrite Hst, E0 in Hempty. rewrite Hempty by reflexivity. constructor.
        - rewrite Hst in Hge. eapply Forall_impl; [|exact Hge].
          intros x Hx. unfold lex_lt. eapply lex_lt_le_trans; eauto. }
      split; [reflexivity|]. split.
      * constructor; [now left|].
        eapply Forall_impl; [|exact Hlater]. intros x Hx. now right.
      * split; now constructor.
Qed.

End DeliveryOrderLoop.

Lemma result_name_injective (bt : str) (u v : word) :
  result_name bt u = result_name bt v -> u = v.
Proof. unfold result_name. apply app_inv_tail. Qed.

Lemma sorted_names_nodup (bt : str) (terms : list word) :
  StronglySorted lex_lt terms -> NoDup (List.map (result_name bt) terms).
Proof.
  induction 1 as [|x l Hs IH Hall]; simpl; constructor; auto.
  intros Hin. apply in_map_iff in Hin as (y & Hy & Hin).
  apply result_name_injective in Hy. subst y.
  rewrite Forall_forall in Hall. specialize (Hall x Hin).
  unfold lex_lt in Hall. now rewrite lex_ltb_irrefl in Hall.
Qed.

(** The deliveries of a session are those of its loop, if any. *)
Lemma session_deliveries
  (str_lower : str -> str) (find_banner : str -> banner_lookup)
  (se : setup_env) (script : list iter_env) (bt : str) (d : N) :
  delivered (fst (run_session str_lower find_banner se script bt d)) = [] \/
  delivered (fst (run_session str_lower find_banner se script bt d))
  = delivered (trace_of (search_loop str_lower find_banner script bt (lit "a"))).
Proof.
  destruct (completion_of (setup_filters se bt tt)) as [[]|ex| |] eqn:Hsetup;
    try (left; apply session_without_setup; rewrite Hsetup; discriminate).
  destruct (new_page_r se) as [[]|ex] eqn:Hnew.
  - right. rewrite run_session_reaches_loop by assumption.
    destruct (setup_submits_nothing se bt d) as [_ Hd].
    destruct (completion_of (search_loop str_lower find_banner script bt (lit "a")));
      cbn [fst]; rewrite delivered_app, Hd; rewrite ?delivered_app;
      simpl; now rewrite ?app_nil_r.
  - left. unfold run_session, process_business_type_session, bind, call, sleep, emit, ret.
    rewrite Hnew. now destruct (0 <? d).
Qed.

(** The terms a session delivers results for: strictly increasing, lowercase. *)
Lemma session_delivery_order
  (str_lower : str -> str) (find_banner : str -> banner_lookup)
  (se : setup_env) (script : list iter_env) (bt : str) (d : N) :
  exists terms,
    List.map business_name
      (delivered (fst (run_session str_lower find_banner se script bt d)))
    = List.map (result_name bt) terms /\
    StronglySorted lex_lt terms /\
    Forall (fun term => all_lower term = true) terms.
Proof.
  destruct (session_deliveries str_lower find_banner se script bt d) as [-> | ->].
  - exists []. repeat split; constructor.
  - destruct (loop_delivery_order str_lower find_banner bt script (lit "a") eq_refl)
      as (terms & H1 & _ & H2 & H3).
    now exists terms.
Qed.

(** X11. Whatever the outside world answers, the results a session
    delivers are for strictly increasing terms: no term has its result
    delivered twice, so no two delivered results carry the same name. *)
Theorem no_term_delivered_twice
  (str_lower : str -> str) (find_banner : str -> banner_lookup)
  (se : setup_env) (script : list iter_env) (bt : str) (d : N) :
  (exists terms,
      List.map business_name
        (delivered (fst (run_session str_lower find_banner se script bt d)))
      = List.map (result_name bt) terms /\
      StronglySorted lex_lt terms) /\
  NoDup (List.map business_name
           (delivered (fst (run_session str_lower find_banner se script bt d)))).
Proof.
  destruct (session_delivery_order str_lower find_banner se script bt d)
    as (terms & H1 & H2 & _).
  split; [now exists terms|].
  rewrite H1. now apply sorted_names_nodup.
Qed.


(** ** Snapshot file names *)

Lemma safe_name_app (u v : str) : safe_name (u ++ v) = safe_name u ++ safe_name v.
Proof.
  unfold safe_name, remove_char, replace_char.
  now rewrite map_app, !filter_app.
Qed.

Lemma safe_name_lower (u : word) : all_lower u = true -> safe_name u = u.
Proof.
  induction u as [|c u IH]; [reflexivity|]. simpl all_lower.
  intros H. apply andb_true_iff in H as [Hc Hu].
  change (c :: u) with ([c] ++ u). rewrite safe_name_app, (IH Hu). f_equal.
  unfold is_lower, letter_a, letter_z in Hc. apply andb_true_iff in Hc as [H1 H2].
  apply N.leb_le in H1, H2.
  unfold safe_name, remove_char, replace_char. simpl.
  replace (c =? 32) with false by (symmetry; apply N.eqb_neq; lia).
  replace (c =? 40) with false by (symmetry; apply N.eqb_neq; lia). simpl.
  replace (c =? 41) with false by (symmetry; apply N.eqb_neq; lia). reflexivity.
Qed.

(** For lowercase terms the snapshot name tells the term. *)
Lemma snapshot_name_injective (ts bt : str) (u v : word) :
  all_lower u = true -> all_lower v = true ->
  snapshot_name ts (result_name bt u) = snapshot_name ts (result_name bt v) ->
  u = v.
Proof.
  intros Hu Hv. unfold snapshot_name, result_name.
  rewrite !safe_name_app, (safe_name_lower u Hu), (safe_name_lower v Hv).
  intros H. apply app_inv_head in H. rewrite <- !app_assoc in H.
  now apply app_inv_tail in H.
Qed.

Lemma safe_name_chars (name : str) (c : N) :
  In c (safe_name name) -> c <> 32 /\ c <> 40 /\ c <> 41.
Proof.
  unfold safe_name, remove_char, replace_char. intros H.
  apply filter_In in H as [H H41]. apply filter_In in H as [H H40].
  apply in_map_iff in H as (x & Hx & _).
  apply negb_true_iff, N.eqb_neq in H41, H40.
  repeat split; auto. intros ->.
  destruct (x =? 32) eqn:E; [discriminate|]. apply N.eqb_neq in E. congruence.
Qed.


(** ** The report record *)

Section ReportFacts.

Variable format_time : N -> str.
Variable timestamp : str.
Variable join_output_dir : str -> str.
Variable basename : str -> str.
Variable select_blocks : str -> result (list block).
Variable describe : exn -> str.

Local Abbreviation extract := (extract select_blocks describe).
Local Abbreviation save_result :=
  (save_result format_time timestamp join_output_dir basename select_blocks describe).

Lemma and_then_out (a b : list output * option exn) (P : output -> Prop) :
  Forall P (fst a) -> Forall P (fst b) -> Forall P (fst (and_then a b)).
Proof.
  destruct a as [out [ex|]]; simpl; auto. intros Ha Hb. now apply Forall_app.
Qed.

Lemma write_block_inner (idx : nat) (b : block) : Forall inner (fst (write_block idx b)).
Proof.
  unfold write_block, write_field.
  repeat (apply and_then_out;
          [try (destruct (name_field b) as [?|?]);
           try (destruct (type_field b) as [?|?]);
           try (destruct (date_field b) as [?|?]);
           try (destruct (location_field b) as [?|?]);
           try (destruct (status_field b) as [?|?]);
           repeat constructor|]).
  repeat constructor.
Qed.

Lemma write_blocks_inner (blocks : list block) :
  forall idx, Forall inner (fst (write_blocks idx blocks)).
Proof.
  induction blocks as [|b rest IH]; intros idx; cbn [write_blocks];
    [constructor|].
  apply and_then_out; [apply write_block_inner | apply IH].
Qed.

(** Extraction writes inner lines only, and only an interrupt leaves it. *)
Lemma extract_inner (html : str) :
  Forall inner (fst (extract html)) /\
  (snd (extract html) = None \/ snd (extract html) = Some BaseExc).
Proof.
  unfold Report.extract.
  destruct (select_blocks html) as [blocks|[|]]; simpl.
  - pose proof (write_blocks_inner blocks 1) as H.
    destruct (write_blocks 1 blocks) as [out [[|]|]]; simpl in *;
      split; auto; repeat constructor; auto.
    apply Forall_app. split; auto. repeat constructor.
  - split; auto. repeat constructor.
  - split; auto.
Qed.

End ReportFacts.



(** ** Pools *)

Section PoolFacts.

Open Scope Z_scope.

Lemma flat_map_const_length {A B} (f : A -> list B) (k : nat) (l : list A) :
  (forall x, List.length (f x) = k) ->
  List.length (flat_map f l) = (List.length l * k)%nat.
Proof.
  intros H. induction l as [|x l IH]; simpl; auto.
  now rewrite length_app, H, IH.
Qed.

Lemma paired_ranks_nodup (i : nat) (ranks : list nat) :
  NoDup ranks -> NoDup (List.map (pair i) ranks).
Proof.
  induction 1 as [|j l Hj Hl IH]; simpl; constructor; auto.
  intros Hin. apply in_map_iff in Hin as (x & Hx & Hin).
  inversion Hx; subst. contradiction.
Qed.

Lemma paired_contexts_nodup (browsers ranks : list nat) :
  NoDup browsers -> NoDup ranks ->
  NoDup (flat_map (fun i => List.map (pair i) ranks) browsers).
Proof.
  intros Hb Hr. induction Hb as [|i l Hi Hl IH]; simpl; [constructor|].
  apply NoDup_app.
  - now apply paired_ranks_nodup.
  - exact IH.
  - intros [i' j] Hin Hin'. apply in_map_iff in Hin as (x & Hx & _).
    inversion Hx; subst. apply in_flat_map in Hin' as (i'' & Hi'' & Hin').
    apply in_map_iff in Hin' as (y & Hy & _). inversion Hy; subst. contradiction.
Qed.

Lemma contexts_per_browser_pos (m b : Z) : 1 <= contexts_per_browser m b.
Proof. unfold contexts_per_browser. lia. Qed.

(** The number of contexts [start] creates. *)
Lemma launched_length (m b : Z) :
  0 <= b ->
  Z.of_nat (List.length (snd (launched m b))) = b * contexts_per_browser m b.
Proof.
  intros Hb. unfold launched. cbn [snd].
  rewrite (flat_map_const_length _ (Z.to_nat (contexts_per_browser m b)))
    by (intros x; now rewrite length_map, length_seq).
  rewrite length_seq, Nat2Z.inj_mul, !Z2Nat.id; auto.
  pose proof (contexts_per_browser_pos m b). lia.
Qed.

End PoolFacts.

(** X14. [start] with a non-positive [browser_pool_size] creates nothing.
    With [browser_pool_size >= 1] it creates
    [browser_pool_size * max(1, max_concurrent // browser_pool_size)]
    contexts, all distinct and at least one per browser; this is fewer
    than [max_concurrent] exactly when [browser_pool_size] is smaller
    than [max_concurrent] and does not divide it. *)
Theorem context_pool_size (m b : Z) :
  ((b <= 0)%Z -> launched m b = ([], [])) /\
  ((1 <= b)%Z ->
   Z.of_nat (List.length (snd (launched m b))) = (b * Z.max 1 (m / b))%Z /\
   (b <= Z.of_nat (List.length (snd (launched m b))))%Z /\
   NoDup (snd (launched m b)) /\
   ((Z.of_nat (List.length (snd (launched m b))) < m)%Z
    <-> (b < m)%Z /\ (m mod b)%Z <> 0%Z)).
Proof.
  split.
  - intros Hb. unfold launched.
    replace (Z.to_nat b) with 0%nat by lia. reflexivity.
  - intros Hb.
    assert (Hlen := launched_length m b ltac:(lia)).
    unfold contexts_per_browser in Hlen.
    split; [exact Hlen|]. split; [rewrite Hlen; nia|]. split.
    + unfold launched. cbn [snd]. apply paired_contexts_nodup; apply seq_NoDup.
    + rewrite Hlen.
      pose proof (Z.div_mod m b ltac:(lia)) as Hdm.
      pose proof (Z.mod_pos_bound m b ltac:(lia)) as Hmod.
      generalize dependent (m mod b)%Z. generalize dependent (m / b)%Z.
      intros q _ r Hdm Hr.
      destruct (Z.max_spec 1 q) as [[Hlt ->] | [Hle ->]]; split;
        try (intros H; split; nia); intros [H1 H2]; nia.
Qed.

Lemma context_pool_size_witness :
  List.length (snd (launched 5 2)) = 4%nat /\
  ((Z.of_nat (List.length (snd (launched 5 2))) < 5)%Z).
Proof.
  split; [reflexivity|].
  apply (proj2 (proj2 (proj2 (proj2 (context_pool_size 5 2) ltac:(lia))))).
  split; [lia | discriminate].
Defined.

Section SelectionFacts.

Open Scope Z_scope.

Lemma select_context_index {A} (pool : list A) (id : Z) :
  pool <> [] ->
  select_context pool id
  = nth_error pool (Z.to_nat (id mod Z.of_nat (List.length pool))) /\
  (Z.to_nat (id mod Z.of_nat (List.length pool)) < List.length pool)%nat.
Proof.
  intros Hne. destruct pool as [|x l]; [congruence|]. split; [reflexivity|].
  pose proof (Z.mod_pos_bound id (Z.of_nat (List.length (x :: l)))) as H.
  cbn [List.length] in *. lia.
Qed.

(** With one context per browser, context [k] belongs to browser [k]. *)
Lemma launched_single (b : Z) (k : nat) :
  1 <= b -> (k < Z.to_nat b)%nat ->
  nth_error (snd (launched MAX_CONCURRENT b)) k = Some (k, 0%nat).
Proof.
  intros Hb Hk. unfold launched, contexts_per_browser, MAX_CONCURRENT. cbn [snd].
  assert (Hq : Z.max 1 (1 / b) = 1).
  { destruct (Z.eq_dec b 1) as [->|Hne]; [reflexivity|].
    rewrite Z.div_small by lia. reflexivity. }
  rewrite Hq. change (Z.to_nat 1) with 1%nat. cbn [seq List.map].
  generalize (Z.to_nat b) Hk. clear. intros n Hk.
  replace (flat_map (fun i => [(i, 0%nat)]) (seq 0 n))
    with (List.map (fun i => (i, 0%nat)) (seq 0 n))
    by (induction (seq 0 n); simpl; congruence).
  rewrite nth_error_map, nth_error_seq.
  destruct (Nat.ltb_spec k n); [reflexivity | lia].
Qed.

End SelectionFacts.

(** X15. A session always finds a context in a non-empty pool (an empty
    pool makes the index computation fail); ids that differ by the pool
    size share a context, while distinct ids below the pool size get
    distinct contexts of a duplicate-free pool. With [MAX_CONCURRENT = 1]
    the three sessions of [process_non_profits] get three different
    contexts exactly when there are at least three browsers. *)
Theorem sessions_share_contexts_beyond_the_pool :
  (forall (A : Type) (id : Z), select_context (@nil A) id = None) /\
  (forall (A : Type) (pool : list A) (id : Z),
      pool <> [] ->
      (exists c, select_context pool id = Some c /\ In c pool) /\
      select_context pool (id + Z.of_nat (List.length pool)) = select_context pool id) /\
  (forall (A : Type) (pool : list A) (i j : Z),
      NoDup pool ->
      (0 <= i)%Z -> (i < j)%Z -> (j < Z.of_nat (List.length pool))%Z ->
      select_context pool i <> select_context pool j) /\
  (forall b : Z,
      (1 <= b)%Z ->
      (NoDup (List.map (select_context (snd (launched MAX_CONCURRENT b))) session_ids)
       <-> (3 <= b)%Z)).
Proof.
  split; [reflexivity|]. split; [|split].
  - intros A pool id Hne.
    destruct (select_context_index pool id Hne) as [E Hlt].
    split.
    + rewrite E. destruct (nth_error pool _) as [c|] eqn:Hc.
      * exists c. split; [reflexivity|]. eapply nth_error_In; eauto.
      * apply nth_error_None in Hc. lia.
    + destruct (select_context_index pool (id + Z.of_nat (List.length pool)) Hne)
        as [E' _].
      rewrite E, E'. do 2 f_equal.
      rewrite <- (Z.mul_1_l (Z.of_nat (List.length pool))) at 1.
      apply Z.mod_add. destruct pool; [congruence | cbn [List.length]; lia].
  - intros A pool i j Hnd Hi Hij Hj.
    assert (Hne : pool <> []) by (destruct pool; [cbn in Hj; lia | discriminate]).
    destruct (select_context_index pool i Hne) as [-> _].
    destruct (select_context_index pool j Hne) as [-> _].
    rewrite !Z.mod_small by lia.
    intros H. apply NoDup_nth_error in H; auto; lia.
  - intros b Hb. unfold session_ids. cbn [List.length business_types seq List.map].
    set (pool := snd (launched MAX_CONCURRENT b)).
    assert (Hlen : Z.of_nat (List.length pool) = b).
    { unfold pool. rewrite launched_length by lia.
      unfold contexts_per_browser, MAX_CONCURRENT.
      destruct (Z.eq_dec b 1) as [->|Hne]; [reflexivity|].
      rewrite Z.div_small by lia. lia. }
    assert (Hne : pool <> []) by (destruct pool; [cbn in Hlen; lia | discriminate]).
    assert (Hsel : forall id, select_context pool id
                              = nth_error pool (Z.to_nat (id mod b))).
    { intros id. destruct (select_context_index pool id Hne) as [-> _].
      now rewrite Hlen. }
    rewrite !Hsel.
    split.
    + intros Hnd. destruct (Z_lt_le_dec b 3) as [Hlt|]; [exfalso | assumption].
      assert (Hb' : (b = 1 \/ b = 2)%Z) by lia.
      destruct Hb' as [-> | ->]; cbn in Hnd.
      * inversion Hnd as [|? ? Hin _]. apply Hin. now left.
      * inversion Hnd as [|? ? Hin _]. apply Hin. right. now left.
    + intros H3. rewrite !Z.mod_small by lia. unfold pool.
      rewrite !launched_single by lia. cbn.
      repeat constructor; simpl; intuition discriminate.
Qed.

Lemma sessions_share_contexts_beyond_the_pool_witness :
  select_context (snd (launched MAX_CONCURRENT 2)) 0
  = select_context (snd (launched MAX_CONCURRENT 2)) 2 /\
  ~ NoDup (List.map (select_context (snd (launched MAX_CONCURRENT 2))) session_ids).
Proof.
  split; [reflexivity|].
  intros H.
  apply (proj2 (proj2 (proj2 sessions_share_contexts_beyond_the_pool)) 2%Z) in H;
    lia.
Defined.

(** ** How long the enumeration lasts *)

Section BoundFacts.

Lemma walk_done (signals : list bool) : walk signals [] = ([], true).
Proof. now destruct signals. Qed.

(** Signals beyond the end of a walk are not read. *)
Lemma walk_extra (s1 s2 : list bool) :
  forall w l, walk s1 w = (l, true) -> walk (s1 ++ s2) w = (l, true).
Proof.
  induction s1 as [|b s1 IH]; intros w l H.
  - destruct w; [now rewrite walk_done | discriminate].
  - destruct w as [|c r]; [now rewrite walk_done|]. cbn [app walk] in *.
    destruct (walk s1 (fst (step_word b (c :: r)))) as [l' ended] eqn:E.
    injection H as <- ->. now rewrite (IH _ _ E).
Qed.

Lemma remaining_app (u v : word) : remaining (u ++ v) = (remaining u + remaining v)%nat.
Proof. induction u as [|c u IH]; simpl; auto. rewrite IH. lia. Qed.

Lemma remaining_z_run (k : nat) : remaining (repeat letter_z k) = k.
Proof. induction k as [|k IH]; simpl; congruence. Qed.

(** The increment uses up at least one of the remaining letters. *)
Lemma increment_uses_up (w : word) :
  all_lower w = true -> w <> [] ->
  (remaining (fst (step_word false w)) < remaining w)%nat.
Proof.
  intros Hl Hne.
  destruct (advance_unsaturated_cases w Hl)
    as [(k & -> & Hn & _) | (p & c & k & -> & Hc & Hcl & Hp & Ha & _)].
  - rewrite (advance_none_inv _ _ Hn), remaining_z_run.
    destruct k; [now elim Hne | simpl; lia].
  - destruct (advance_inv _ _ _ Ha) as [-> _].
    rewrite !remaining_app. cbn [remaining]. rewrite remaining_z_run.
    unfold is_lower, letter_a, letter_z in Hcl.
    apply andb_true_iff in Hcl as [H1 H2]. apply N.leb_le in H1, H2. lia.
Qed.

(** Without saturation a walk ends within [remaining w] passes. *)
Lemma unsaturated_walk_ends :
  forall (n : nat) (w : word),
    all_lower w = true -> (remaining w <= n)%nat ->
    snd (walk (repeat false n) w) = true /\
    (List.length (fst (walk (repeat false n) w)) <= remaining w)%nat.
Proof.
  induction n as [|n IH]; intros w Hl Hn.
  - destruct w as [|c r]; [split; [reflexivity | simpl; lia]|].
    cbn [remaining] in Hn. unfold all_lower in Hl. cbn [forallb] in Hl.
    apply andb_true_iff in Hl as [Hc _].
    unfold is_lower, letter_z in Hc. apply andb_true_iff in Hc as [_ Hc].
    apply N.leb_le in Hc. lia.
  - destruct w as [|c r]; [split; [reflexivity | simpl; lia]|].
    pose proof (increment_uses_up (c :: r) Hl ltac:(discriminate)) as Hlt.
    cbn [repeat walk].
    destruct (IH (fst (step_word false (c :: r))) (step_word_lower _ _ Hl) ltac:(lia))
      as [H1 H2].
    destruct (walk (repeat false n) (fst (step_word false (c :: r)))) as [l ended].
    cbn [fst snd List.length] in *. split; [exact H1 | lia].
Qed.

Lemma remaining_bound (w : word) :
  all_lower w = true -> (remaining w <= 26 * List.length w)%nat.
Proof.
  induction w as [|c r IH]; [simpl; lia|]. simpl all_lower. intros H.
  apply andb_true_iff in H as [Hc Hr]. specialize (IH Hr).
  unfold is_lower, letter_a in Hc. apply andb_true_iff in Hc as [Hc _].
  apply N.leb_le in Hc. cbn [remaining List.length]. lia.
Qed.

(** With saturation at every pass a walk never ends. *)
Lemma saturated_walk_descends :
  forall (n : nat) (w : word),
    w <> [] ->
    walk (repeat true n) w = (List.map (fun t => (t, true)) (descent n w), false).
Proof.
  induction n as [|n IH]; intros w Hne.
  - destruct w; [congruence | reflexivity].
  - destruct w as [|c r]; [congruence|]. cbn [repeat walk descent List.map].
    cbn [step_word fst]. rewrite IH; [reflexivity|].
    unfold descend. now destruct r.
Qed.

End BoundFacts.

(** X16. Without saturation the enumeration cannot last: from a
    lowercase word [w] it ends within [remaining w] passes, which is at
    most 26 per letter; signals beyond the end are never read. *)
Theorem unsaturated_enumeration_is_bounded (n : nat) (w : word) (rest : list bool) :
  all_lower w = true -> (remaining w <= n)%nat ->
  snd (walk (repeat false n ++ rest) w) = true /\
  (List.length (fst (walk (repeat false n ++ rest) w)) <= remaining w)%nat /\
  (remaining w <= 26 * List.length w)%nat.
Proof.
  intros Hl Hn.
  destruct (unsaturated_walk_ends n w Hl Hn) as [H1 H2].
  destruct (walk (repeat false n) w) as [l ended] eqn:E. cbn [fst snd] in *.
  subst ended. rewrite (walk_extra _ rest _ _ E). cbn [fst snd].
  repeat split; auto. now apply remaining_bound.
Qed.

Lemma unsaturated_enumeration_is_bounded_witness :
  snd (walk (repeat false 30 ++ [true; true]) (lit "xz")) = true /\
  (List.length (fst (walk (repeat false 30 ++ [true; true]) (lit "xz"))) <= 4)%nat.
Proof.
  destruct (unsaturated_enumeration_is_bounded 30 (lit "xz") [true; true] eq_refl)
    as (H1 & H2 & _); [simpl; lia|].
  split; [exact H1 | exact H2].
Defined.

Lemma constant_signals (find_banner : str -> banner_lookup) (b : bool) (script : list iter_env) :
  forallb (fun e => Bool.eqb (signal_of find_banner e) b) script = true ->
  List.map (signal_of find_banner) script = repeat b (List.length script).
Proof.
  induction script as [|e rest IH]; [reflexivity|]. cbn [forallb].
  intros H. apply andb_true_iff in H as [He Hrest].
  apply Bool.eqb_prop in He. cbn [List.map List.length repeat].
  now rewrite He, IH.
Qed.

Lemma results_along_length (script : list iter_env) (bt : str) :
  forall terms,
    List.length (results_along script terms bt)
    = Nat.min (List.length script) (List.length terms).
Proof.
  induction script as [|e rest IH]; intros [|w terms]; simpl; auto.
Qed.

(** X17. A session that gets through set-up, whose passes all succeed
    and whose captured pages never show saturation, ends as soon as 26
    passes were available: it has submitted exactly the letters ["a"] to
    ["z"], in order, delivered 26 results, and closed its page. *)
Theorem unsaturated_session_ends
  (str_lower : str -> str) (find_banner : str -> banner_lookup)
  (se : setup_env) (script : list iter_env) (bt : str) (d : N) :
  new_page_r se = Ok tt ->
  completion_of (setup_filters se bt tt) = Normal tt ->
  forallb (pass_succeeds str_lower) script = true ->
  forallb (fun e => Bool.eqb (signal_of find_banner e) false) script = true ->
  (26 <= List.length script)%nat ->
  let r := run_session str_lower find_banner se script bt d in
  submitted (fst r) = alphabet /\
  List.length (delivered (fst r)) = 26%nat /\
  snd r = match close_r se with Ok _ => Normal tt | Err ex => Raised ex end.
Proof.
  intros Hnew Hsetup Hq Hsig Hlen.
  destruct (quiet_session_run str_lower find_banner se script bt d Hnew Hsetup Hq)
    as (H1 & H2 & H3).
  rewrite (constant_signals find_banner false script Hsig) in H1, H2, H3.
  assert (Hwalk : walk (repeat false (List.length script)) (lit "a")
                  = (List.map (fun t => (t, false)) alphabet, true)).
  { replace (List.length script) with (26 + (List.length script - 26))%nat by lia.
    rewrite repeat_app. apply walk_extra. vm_compute. reflexivity. }
  rewrite Hwalk in H1, H2, H3. cbn [fst snd] in H1, H2, H3.
  rewrite map_map in H1, H2. cbn [fst] in H1, H2. rewrite map_id in H1, H2.
  cbv zeta. rewrite H1, H2, H3, results_along_length.
  repeat split. change (List.length alphabet) with 26%nat. lia.
Qed.

Lemma unsaturated_session_ends_witness :
  submitted (fst (run_session lower_ascii banner_of setup_bare
                    (repeat (pass page_empty 0) 40) nfp 0)) = alphabet.
Proof.
  refine (proj1 (unsaturated_session_ends lower_ascii banner_of setup_bare
                   (repeat (pass page_empty 0) 40) nfp 0
                   eq_refl _ eq_refl eq_refl _)).
  - vm_compute. reflexivity.
  - simpl. lia.
Defined.

Lemma descent_terms (n : nat) :
  forall w, List.map fst (List.map (fun t : word => (t, true)) (descent n w)) = descent n w.
Proof. intros w. rewrite map_map. apply map_id. Qed.

(** X18. The loop has no depth limit: in a session that gets through
    set-up, whose passes all succeed and whose captured pages all show
    saturation, every pass appends one more ['a'], the terms submitted
    are ["a"], ["aa"], ["aaa"], ..., and the session is still running
    however many passes it was given. *)
Theorem saturated_session_never_ends
  (str_lower : str -> str) (find_banner : str -> banner_lookup)
  (se : setup_env) (script : list iter_env) (bt : str) (d : N) :
  new_page_r se = Ok tt ->
  completion_of (setup_filters se bt tt) = Normal tt ->
  forallb (pass_succeeds str_lower) script = true ->
  forallb (fun e => Bool.eqb (signal_of find_banner e) true) script = true ->
  let r := run_session str_lower find_banner se script bt d in
  submitted (fst r) = descent (List.length script) (lit "a") /\
  List.length (delivered (fst r)) = List.length script /\
  snd r = Pending.
Proof.
  intros Hnew Hsetup Hq Hsig.
  destruct (quiet_session_run str_lower find_banner se script bt d Hnew Hsetup Hq)
    as (H1 & H2 & H3).
  rewrite (constant_signals find_banner true script Hsig) in H1, H2, H3.
  rewrite saturated_walk_descends in H1, H2, H3 by discriminate.
  cbn [fst snd] in H1, H2, H3. rewrite descent_terms in H1, H2.
  cbv zeta. rewrite H1, H2, H3, results_along_length.
  repeat split.
  assert (Hd : forall n w, List.length (descent n w) = n)
    by (induction n; intros; simpl; auto).
  rewrite Hd. lia.
Qed.

Lemma saturated_session_never_ends_witness :
  submitted (fst (run_session lower_ascii banner_of setup_ok
                    (repeat (pass page_full 200) 3) nfp 0))
  = [lit "a"; lit "aa"; lit "aaa"] /\
  snd (run_session lower_ascii banner_of setup_ok
         (repeat (pass page_full 200) 3) nfp 0) = Pending.
Proof.
  destruct (saturated_session_never_ends lower_ascii banner_of setup_ok
              (repeat (pass page_full 200) 3) nfp 0 eq_refl eq_refl eq_refl eq_refl)
    as (H1 & _ & H3).
  split; [exact H1 | exact H3].
Defined.

(** ** What counts as saturation *)

Section TokenFacts.

Variable sep : N.

Lemma split_nonempty (s : str) : split sep s <> [].
Proof.
  destruct s as [|c s]; simpl; [discriminate|].
  destruct (c =? sep); [discriminate|]. destruct (split sep s); discriminate.
Qed.

(** Splitting cuts at every separator. *)
Lemma split_at_sep (l r : str) :
  split sep (l ++ sep :: r) = split sep l ++ split sep r.
Proof.
  induction l as [|c l IH]; simpl.
  - now rewrite N.eqb_refl.
  - rewrite IH. destruct (c =? sep); [reflexivity|].
    pose proof (split_nonempty l) as Hne.
    destruct (split sep l); [congruence | reflexivity].
Qed.

Lemma split_whole (x : str) :
  (forall c, In c x -> c <> sep) -> split sep x = [x].
Proof.
  induction x as [|c x IH]; intros H; [reflexivity|]. simpl.
  replace (c =? sep) with false
    by (symmetry; apply N.eqb_neq; apply H; now left).
  rewrite IH by (intros c' Hc'; apply H; now right). reflexivity.
Qed.

(** Where the pieces of a split lie in the string. *)
Lemma split_pieces (s : str) :
  exists piece rest,
    split sep s = piece :: rest /\
    (exists r, s = piece ++ r /\ (r = [] \/ exists r', r = sep :: r')) /\
    (forall p, In p rest ->
               exists l' r, s = (l' ++ [sep]) ++ p ++ r /\
                            (r = [] \/ exists r', r = sep :: r')).
Proof.
  induction s as [|c s (piece & rest & Hs & (r & Hr & Hrb) & Hrest)].
  - exists [], []. split; [reflexivity|]. split; [exists []; auto|]. intros p [].
  - simpl. destruct (c =? sep) eqn:Hc.
    + apply N.eqb_eq in Hc. subst c. rewrite Hs.
      exists [], (piece :: rest). split; [reflexivity|]. split.
      * exists (sep :: s). split; [reflexivity | right; eauto].
      * intros p [<- | Hin].
        -- exists [], r. split; [simpl; now rewrite Hr | exact Hrb].
        -- destruct (Hrest p Hin) as (l' & r0 & E & Hb).
           exists (sep :: l'), r0. split; [simpl; now rewrite E | exact Hb].
    + rewrite Hs. exists (c :: piece), rest. split; [reflexivity|]. split.
      * exists r. split; [simpl; now rewrite Hr | exact Hrb].
      * intros p Hin. destruct (Hrest p Hin) as (l' & r0 & E & Hb).
        exists (c :: l'), r0. split; [simpl; now rewrite E | exact Hb].
Qed.

(** A piece of the split is a string without separator standing as a
    whole token, and conversely. *)
Lemma mem_split_token (x s : str) :
  (forall c, In c x -> c <> sep) ->
  sep = 32 ->
  mem x (split sep s) = true <-> token x s.
Proof.
  intros Hx Hsep. unfold mem. rewrite existsb_exists. split.
  - intros (p & Hin & Hp). apply str_eqb_eq in Hp. subst p.
    destruct (split_pieces s) as (piece & rest & Hs & (r & Hr & Hrb) & Hrest).
    rewrite Hs in Hin. destruct Hin as [<- | Hin].
    + exists [], r. rewrite <- Hsep. auto.
    + destruct (Hrest x Hin) as (l' & r0 & E & Hb).
      exists (l' ++ [sep]), r0. rewrite <- Hsep. eauto.
  - intros (l & r & -> & Hl & Hr). exists x. split; [|apply str_eqb_eq; reflexivity].
    rewrite <- Hsep in Hl, Hr.
    destruct Hl as [-> | [l' ->]]; destruct Hr as [-> | [r' ->]]; cbn [app].
    + rewrite app_nil_r, (split_whole x); auto. now left.
    + rewrite split_at_sep, (split_whole x); auto. now left.
    + rewrite app_nil_r, <- app_assoc. cbn [app].
      rewrite split_at_sep, (split_whole x); auto.
      apply in_or_app. right. now left.
    + rewrite <- app_assoc. cbn [app].
      rewrite split_at_sep, split_at_sep, (split_whole x); auto.
      apply in_or_app. right. now left.
Qed.

End TokenFacts.

(** X19. A captured page counts as saturated exactly when its
    result-count banner is found and its text holds "200" as a whole
    space-delimited token - preceded by a space or the start of the
    text, followed by a space or its end. *)
Theorem saturation_is_a_whole_token
  (find_banner : str -> banner_lookup) (html : str) :
  saturation_signal find_banner html = true <->
  exists text, find_banner html = Banner text /\ token (lit "200") text.
Proof.
  assert (Hd : forall c, In c (lit "200") -> c <> 32).
  { intros c H ->. simpl in H. intuition discriminate. }
  unfold saturation_signal. destruct (find_banner html) as [text| |].
  - rewrite (mem_split_token 32 (lit "200") text Hd eq_refl).
    split; [intros H; now exists text | intros (t & E & H); now inversion E].
  - split; [discriminate | intros (t & E & _); discriminate].
  - split; [discriminate | intros (t & E & _); discriminate].
Qed.

Lemma saturation_is_a_whole_token_witness :
  saturation_signal banner_of page_full = true /\
  saturation_signal banner_of (lit "Showing 1 to 1200 of 1200") = false.
Proof.
  split; [|reflexivity].
  apply (proj2 (saturation_is_a_whole_token banner_of page_full)).
  exists page_full. split; [reflexivity|].
  exists (lit "Showing 1 to "), (lit " of 3456").
  split; [reflexivity|]. split; right.
  - exists (lit "Showing 1 to"). reflexivity.
  - exists (lit "of 3456"). reflexivity.
Defined.
